(** * MongoEntityConnection: keyset pagination over a Mongo repository

    A shallow embedding of [src/MongoEntityConnection.ts].

    - JavaScript values are an abstract type [V] with a distinguished
      [undefined] and the three-way comparison the data source orders
      and compares values by.
    - Documents and the objects of a selector are finite maps from field
      names; a property that is not there reads as [undefined].
    - The repository is the list of the documents of its collection
      together with the [find] requests it has received; [find] and
      [count] follow the contract of an ordered query executor.
    - A method that can throw returns [Exception + _]; the promise of
      [query] is the list of rows it resolves to.
    - [super(args)] keeps the arguments in [this.args]. *)

From stdpp Require Import gmap strings list sorting.
From Stdlib Require Import ZArith Ascii.

Set Warnings "-register-all".

(** ** Sort options *)

(** The type [1 | -1] of [MongoEntityConnectionSortOption.order]. *)
Inductive Order := Asc | Desc.

Definition Order_to_Z (o : Order) : Z :=
  match o with Asc => 1%Z | Desc => (-1)%Z end.

(** A number handed to the driver as a sort direction: positive is
    ascending, anything else descending. *)
Definition Order_of_Z (z : Z) : Order := if (0 <? z)%Z then Asc else Desc.

(** [order === 1] *)
Definition is_one (o : Order) : bool := (Order_to_Z o =? 1)%Z.

(** An object [{ [fieldName]: 1 | -1 }] as the list of its properties in
    the order [Object.keys] enumerates them, which is also the list
    [this.sortOptions] the constructor maps it to.  The keys of an object
    are pairwise distinct: statements that need it assume [NoDup] of the
    field names. *)
Abbreviation SortSpec := (list (string * Order)).

Definition fieldNames (sortOptions : SortSpec) : list string := sortOptions.*1.

(** ** Selectors *)

Inductive Op := gt | lt | gte | lte.

(** The condition on one field: a bare value [{ f: v }] asks for
    equality, [{ f: { $op: v } }] for a comparison. *)
Inductive Cond (V : Type) :=
| CEq (value : V)
| COp (equality : Op) (value : V).
Arguments CEq {V} value.
Arguments COp {V} equality value.

(** The selector shapes of the module: a plain object of field
    conditions ([{}] is [Fields ∅]), [{ $or: [...] }] and
    [{ $and: [...] }]. *)
Inductive Selector (V : Type) :=
| Fields (conds : gmap string (Cond V))
| Or (selectors : list (Selector V))
| And (selectors : list (Selector V)).
Arguments Fields {V} conds.
Arguments Or {V} selectors.
Arguments And {V} selectors.

Inductive Direction := After | Before.

(** The [eq] table of [keyToSelector]. *)
Definition eqTable (direction : Direction) : Op * Op * Op * Op :=
  match direction with
  | After => (gt, lt, gte, lte)
  | Before => (lt, gt, lte, gte)
  end.

(** ** Arguments and errors *)

(** [ConnectionArguments] of [@girin/connection]; an absent property is
    [None]. *)
Record ConnectionArguments := {
  first : option nat;
  last : option nat;
  after : option string;
  before : option string;
}.

(** What a call can throw. *)
Inductive Exception :=
| Error (message : string)
| TypeError
| BsonError.

Definition quote : string := String (ascii_of_nat 34) EmptyString.

(** ['Argument "first" and "last" must not be included at the same time'] *)
Definition firstLastMessage : string :=
  "Argument " +:+ quote +:+ "first" +:+ quote +:+ " and " +:+ quote +:+ "last"
    +:+ quote +:+ " must not be included at the same time".

(** Truthiness of an optional number and of an optional string. *)
Definition truthyNumber (x : option nat) : bool :=
  match x with Some n => negb (n =? 0) | None => false end.

Definition truthyString (x : option string) : bool :=
  match x with Some s => negb (String.eqb s "") | None => false end.

(** [typeof x === 'number'], [typeof x === 'string']. *)
Definition isNumber (x : option nat) : bool :=
  match x with Some _ => true | None => false end.

Definition isString (x : option string) : bool :=
  match x with Some _ => true | None => false end.

(** ** Sample data

    Posts with an integer [createdAt] and an integer [slug], ordered by
    [createdAt] ascending and [slug] descending as in the tests; values
    are integers under their usual comparison. *)
Module Sample.

Definition post (createdAt slug : Z) : gmap string Z :=
  <["createdAt" := createdAt]> (<["slug" := slug]> ∅).

Definition posts : list (gmap string Z) :=
  [post 3 1; post 1 1; post 2 5; post 2 7].

Definition sortOptions : list (string * Order) :=
  [("createdAt", Asc); ("slug", Desc)].

(** A stand-in for the cursor codec: a cursor is the text of its key,
    one character per value. *)
Definition deserialize (buffer : list Byte.byte) : option (list Z) :=
  Some ((λ b, Z.of_N (Byte.to_N b)) <$> buffer).

Definition decode (cursor : string) : list Byte.byte :=
  String.list_byte_of_string cursor.

(** A post as the pair of its two fields. *)
Definition view (row : gmap string Z) : Z * Z :=
  (default 0%Z (row !! "createdAt"), default 0%Z (row !! "slug")).

Definition noBounds (first last : option nat) : ConnectionArguments :=
  {| first := first; last := last; after := None; before := None |}.

(** The cursor the stand-in codec decodes to the key [[2; 5]]. *)
Definition cursor25 : string :=
  String (ascii_of_nat 2) (String (ascii_of_nat 5) EmptyString).

(** The cursor the stand-in codec decodes to the key [[3; 1]]. *)
Definition cursor31 : string :=
  String (ascii_of_nat 3) (String (ascii_of_nat 1) EmptyString).

End Sample.

Section Values.

Context {V : Type}.

(** [undefined], the value of a property that is not there. *)
Variable undefined : V.

(** The comparison of the data source on values. *)
Variable compare : V → V → comparison.

(** A document: its own fields. *)
Abbreviation Row := (gmap string V).

(** [item[fieldName]] *)
Definition getField (item : gmap string V) (fieldName : string) : V :=
  default undefined (item !! fieldName).

(** [key[j]] *)
Definition keyAt (key : list V) (j : nat) : V :=
  default undefined (key !! j).

(** *** Matching (the data source's side of a selector)

    Modelled from the spec: the meaning of a range predicate for the
    data source.  [$gt], [$lt], [$gte], [$lte] and equality are read on
    the comparison of the field's value with the given one. *)

Definition opHolds (op : Op) (x value : V) : bool :=
  match op, compare x value with
  | gt, Gt => true
  | lt, Lt => true
  | gte, (Gt | Eq) => true
  | lte, (Lt | Eq) => true
  | _, _ => false
  end.

Definition condHolds (c : Cond V) (x : V) : bool :=
  match c with
  | CEq value => match compare x value with Eq => true | _ => false end
  | COp op value => opHolds op x value
  end.

Definition fieldsHold (conds : gmap string (Cond V)) (row : gmap string V) : bool :=
  bool_decide (map_Forall (λ f c, condHolds c (getField row f) = true) conds).

Fixpoint matches (s : Selector V) (row : gmap string V) : bool :=
  match s with
  | Fields conds => fieldsHold conds row
  | Or selectors => existsb (λ s', matches s' row) selectors
  | And selectors => forallb (λ s', matches s' row) selectors
  end.

(** *** keyToSelector *)

(** The operator of field [j] in the [i]-th conjunct. *)
Definition equalityOf (direction : Direction) (i j : nat) (order : Order) : Op :=
  let '(eq0, eq1, eq2, eq3) := eqTable direction in
  if (i =? j)
  then (if is_one order then eq0 else eq1)
  else (if is_one order then eq2 else eq3).

(** The body of the inner loop: [selector[fieldName] = { [equality]: value }]. *)
Definition innerStep (sortOptions : SortSpec) (key : list V)
    (direction : Direction) (i : nat)
    (selector : gmap string (Cond V)) (j : nat) : gmap string (Cond V) :=
  match sortOptions !! j with
  | Some (fieldName, order) =>
      let value := keyAt key j in
      let equality := equalityOf direction i j order in
      <[fieldName := COp equality value]> selector
  | None => selector
  end.

(** [for (let j = 0; j < i + 1; j++) ...] starting from [{}]. *)
Definition innerLoop (sortOptions : SortSpec) (key : list V)
    (direction : Direction) (i : nat) : gmap string (Cond V) :=
  foldl (innerStep sortOptions key direction i) ∅ (seq 0 (i + 1)).

(** [for (let i = 0; i < sortOptions.length; i++) $or.push(selector)]. *)
Definition keyToSelector (sortOptions : SortSpec) (key : list V)
    (direction : Direction) : Selector V :=
  Or ((λ i, Fields (innerLoop sortOptions key direction i))
        <$> seq 0 (length sortOptions)).

(** *** The composite sort order

    Modelled from the spec: the order in which the data source returns
    rows for a sort specification, field after field, the first field
    that differs deciding. *)

(** The comparison of one sort field, turned round when it is descending. *)
Definition dirCompare (order : Order) (x y : V) : comparison :=
  if is_one order then compare x y else CompOpp (compare x y).

(** The key of a row, as [resolveCursor] takes it:
    [sortOptions.map(({ fieldName }) => item[fieldName])]. *)
Definition cursorKey (sortOptions : SortSpec) (item : gmap string V) : list V :=
  (λ so, getField item so.1) <$> sortOptions.

Definition fieldCompares (sortOptions : SortSpec) (k1 k2 : list V) : list comparison :=
  imap (λ j so, dirCompare so.2 (keyAt k1 j) (keyAt k2 j)) sortOptions.

(** The first component that differs decides. *)
Fixpoint firstDiff (cs : list comparison) : comparison :=
  match cs with
  | [] => Eq
  | Eq :: cs' => firstDiff cs'
  | c :: _ => c
  end.

(** Two keys under the multi-field order of [sortOptions]. *)
Definition compositeCompare (sortOptions : SortSpec) (k1 k2 : list V) : comparison :=
  firstDiff (fieldCompares sortOptions k1 k2).

(** The side of the reference key a direction asks for. *)
Definition wanted (direction : Direction) : comparison :=
  match direction with After => Gt | Before => Lt end.

(** *** The keyset predicate as the specification words it

    For each prefix length [i], fields [j < i] equal to [key[j]] and
    field [i] strictly beyond [key[i]]; the disjunction of these. *)
Definition standardCond (direction : Direction) (i j : nat) (order : Order)
    (value : V) : Cond V :=
  if (i =? j)
  then COp (match direction, order with
            | After, Asc | Before, Desc => gt
            | After, Desc | Before, Asc => lt
            end) value
  else CEq value.

Definition standardConj (sortOptions : SortSpec) (key : list V)
    (direction : Direction) (i : nat) : gmap string (Cond V) :=
  foldl (λ selector j,
           match sortOptions !! j with
           | Some (fieldName, order) =>
               <[fieldName := standardCond direction i j order (keyAt key j)]> selector
           | None => selector
           end) ∅ (seq 0 (i + 1)).

Definition standardKeyset (sortOptions : SortSpec) (key : list V)
    (direction : Direction) : Selector V :=
  Or ((λ i, Fields (standardConj sortOptions key direction i))
        <$> seq 0 (length sortOptions)).

(** ** The repository *)

(** The request of [repository.find]. *)
Record FindOptions := {
  where_ : Selector V;
  order : list (string * Z);
  take_ : option nat;
}.

(** The data source: the documents of the collection, and the [find]
    requests it has been sent. *)
Record World := {
  collection : list (gmap string V);
  issued : list FindOptions;
}.

Definition rowLe (orderSpec : SortSpec) (a b : gmap string V) : Prop :=
  compositeCompare orderSpec (cursorKey orderSpec a) (cursorKey orderSpec b) ≠ Gt.

#[local] Instance rowLe_dec orderSpec a b : Decision (rowLe orderSpec a b).
Proof. unfold rowLe. apply _. Defined.

Definition selected (s : Selector V) (docs : list (gmap string V)) : list (gmap string V) :=
  List.filter (matches s) docs.

Definition truncate (limit : option nat) (docs : list (gmap string V)) : list (gmap string V) :=
  match limit with Some n => take n docs | None => docs end.

(** Modelled from the spec: [repository.find] of typeorm's
    [MongoRepository], by the contract of [fetch]: the rows matching the
    predicate, sorted per the order, truncated to the limit if given. *)
Definition find (docs : list (gmap string V)) (request : FindOptions) : list (gmap string V) :=
  let orderSpec := (λ fo, (fo.1, Order_of_Z fo.2)) <$> order request in
  truncate (take_ request) (merge_sort (rowLe orderSpec) (selected (where_ request) docs)).

(** Modelled from the spec: [repository.count(selector, { limit })] of
    typeorm's [MongoRepository], by the contract of [countUpTo]: the
    smaller of the number of matching rows and the bound. *)
Definition count (docs : list (gmap string V)) (s : Selector V) (limit : nat) : nat :=
  length (selected s docs) `min` limit.

(** ** The cursor codec

    [bson.serialize], [bson.deserialize] and the base64 conversions of
    [Buffer] are the driver's and Node's. *)
Variable bson_serialize : list V → list Byte.byte.
Variable bson_deserialize : list Byte.byte → option (list V).
Variable base64_encode : list Byte.byte → string.
Variable base64_decode : string → list Byte.byte.

(** ** MongoEntityConnection *)

Record MongoEntityConnectionOptions := {
  options_sortOptions : SortSpec;
  options_selector : option (Selector V);
}.

(** The fields of an instance.  [queryPromise] holds the rows the
    promise of [query] resolves to. *)
Record MongoEntityConnection := {
  args : ConnectionArguments;
  options : MongoEntityConnectionOptions;
  limit : option nat;
  sortOptions : SortSpec;
  afterKey : option (list V);
  beforeKey : option (list V);
  afterSelector : option (Selector V);
  beforeSelector : option (Selector V);
  selector : Selector V;
  queryPromise : option (list (gmap string V));
}.

Definition resolveCursor (sortOptions : SortSpec) (item : gmap string V) : string :=
  let key := (λ so, getField item so.1) <$> sortOptions in
  base64_encode (bson_serialize key).

Definition resolveNode (item : gmap string V) : gmap string V := item.

Definition explodeCursor (cursor : string) : Exception + list V :=
  let buffer := base64_decode cursor in
  match bson_deserialize buffer with
  | Some key => inr key
  | None => inl BsonError
  end.

(** The part of the constructor from [const selectors = []] on, with
    the keys already decoded. *)
Definition combine (selectors : list (Selector V)) : Selector V :=
  match selectors with
  | [] => Fields ∅
  | [s] => s
  | _ => And selectors
  end.

(** [if (args.after) { ... }] and [if (args.before) { ... }]: the key of
    a truthy cursor. *)
Definition decodeBound (cursor : option string) : Exception + option (list V) :=
  match cursor with
  | Some c =>
      if truthyString cursor
      then match explodeCursor c with
           | inr key => inr (Some key)
           | inl e => inl e
           end
      else inr None
  | None => inr None
  end.

Definition constructor (args : ConnectionArguments)
    (options : MongoEntityConnectionOptions) : Exception + MongoEntityConnection :=
  if truthyNumber (first args) && truthyNumber (last args)
  then inl (Error firstLastMessage)
  else
    let sortOptions := options_sortOptions options in
    let limit :=
      if truthyNumber (first args) then first args
      else if truthyNumber (last args) then last args
      else None in
    match decodeBound (after args) with
    | inl e => inl e
    | inr afterKey =>
        let afterSelector := (λ key, keyToSelector sortOptions key After) <$> afterKey in
        match decodeBound (before args) with
        | inl e => inl e
        | inr beforeKey =>
            let beforeSelector := (λ key, keyToSelector sortOptions key Before) <$> beforeKey in
            let selectors :=
              option_list afterSelector ++ option_list beforeSelector
                ++ option_list (options_selector options) in
            inr {| args := args; options := options; limit := limit;
                   sortOptions := sortOptions;
                   afterKey := afterKey; beforeKey := beforeKey;
                   afterSelector := afterSelector; beforeSelector := beforeSelector;
                   selector := combine selectors;
                   queryPromise := None |}
        end
    end.

(** [this.keyToSelector(this.afterKey!, ...)]: reading [key[0]] of a key
    that was never decoded throws. *)
Definition keyToSelectorOf (sortOptions : SortSpec) (key : option (list V))
    (direction : Direction) : Exception + Selector V :=
  match key with
  | Some k => inr (keyToSelector sortOptions k direction)
  | None => match sortOptions with [] => inr (Or []) | _ => inl TypeError end
  end.

Definition resolveHasNextPage (c : MongoEntityConnection)
    (docs : list (gmap string V)) : Exception + bool :=
  match first (args c) with
  | Some first =>
      let limitOrMore := count docs (selector c) (first + 1) in
      inr (first <? limitOrMore)
  | None =>
      if isString (before (args c))
      then match keyToSelectorOf (sortOptions c) (beforeKey c) After with
           | inr afterBeforeSelector =>
               let oneOrZero := count docs afterBeforeSelector 1 in
               inr (0 <? oneOrZero)
           | inl e => inl e
           end
      else inr false
  end.

Definition resolveHasPreviousPage (c : MongoEntityConnection)
    (docs : list (gmap string V)) : Exception + bool :=
  match last (args c) with
  | Some last =>
      let limitOrMore := count docs (selector c) (last + 1) in
      inr (last <? limitOrMore)
  | None =>
      if isString (after (args c))
      then match keyToSelectorOf (sortOptions c) (afterKey c) Before with
           | inr beforeAfterSelector =>
               let oneOrZero := count docs beforeAfterSelector 1 in
               inr (0 <? oneOrZero)
           | inl e => inl e
           end
      else inr false
  end.

(** [sortOptions.reduce(...)]: the field names are distinct, so every
    assignment adds a property. *)
Definition appliedSortOrder (sortOptions : SortSpec) (reverse : bool) : list (string * Z) :=
  (λ so, (so.1, (Order_to_Z so.2 * (if reverse then -1 else 1))%Z)) <$> sortOptions.

Definition query (c : MongoEntityConnection) (w : World) : list (gmap string V) * World :=
  let reverse := isNumber (last (args c)) in
  let request := {| where_ := selector c;
                    order := appliedSortOrder (sortOptions c) reverse;
                    take_ := limit c |} in
  let docs := find (collection w) request in
  let w' := {| collection := collection w; issued := issued w ++ [request] |} in
  (if reverse then list.reverse docs else docs, w').

Definition getEdgeSources (c : MongoEntityConnection) (w : World)
    : list (gmap string V) * MongoEntityConnection * World :=
  match queryPromise c with
  | Some rows => (rows, c, w)
  | None =>
      let '(rows, w') := query c w in
      (rows,
       {| args := args c; options := options c; limit := limit c;
          sortOptions := sortOptions c;
          afterKey := afterKey c; beforeKey := beforeKey c;
          afterSelector := afterSelector c; beforeSelector := beforeSelector c;
          selector := selector c;
          queryPromise := Some rows |}, w')
  end.

(** A run of accesses to the edge sources, the collection being whatever
    other writers made of it before each access. *)
Fixpoint accesses (c : MongoEntityConnection) (w : World)
    (contents : list (list (gmap string V)))
    : list (list (gmap string V)) * MongoEntityConnection * World :=
  match contents with
  | [] => ([], c, w)
  | docs :: contents' =>
      let '(rows, c', w') :=
        getEdgeSources c {| collection := docs; issued := issued w |} in
      let '(results, c'', w'') := accesses c' w' contents' in
      (rows :: results, c'', w'')
  end.

(** ** Notions the statements use *)

(** The [i]-th disjunct of the built selector, read on the list of field
    comparisons: field [i] on the wanted side, the fields before it on
    that side or equal. *)
Definition looseAt (w : comparison) (cs : list comparison) (i : nat) : Prop :=
  cs !! i = Some w ∧ ∀ j c, j < i → cs !! j = Some c → c = w ∨ c = Eq.

(** The same with the fields before [i] equal. *)
Definition exactAt (w : comparison) (cs : list comparison) (i : nat) : Prop :=
  cs !! i = Some w ∧ ∀ j c, j < i → cs !! j = Some c → c = Eq.

(** A conjunct that may be absent. *)
Definition holdsOpt (s : option (Selector V)) (row : gmap string V) : bool :=
  match s with Some s => matches s row | None => true end.

(** The request a connection sends when it queries. *)
Definition requestOf (c : MongoEntityConnection) : FindOptions :=
  {| where_ := selector c;
     order := appliedSortOrder (sortOptions c) (isNumber (last (args c)));
     take_ := limit c |}.

(** The matching rows in the order of the sort options. *)
Definition ascending (sortOptions : SortSpec) (s : Selector V)
    (docs : list (gmap string V)) : list (gmap string V) :=
  merge_sort (rowLe sortOptions) (selected s docs).

(** The sort options with every direction inverted. *)
Definition inverted (sortOptions : SortSpec) : SortSpec :=
  (λ fo, (fo.1, match fo.2 with Asc => Desc | Desc => Asc end)) <$> sortOptions.

(** The caller's selector alone, as the constructor combines a single
    selector or none. *)
Definition baseSelector (o : MongoEntityConnectionOptions) : Selector V :=
  combine (option_list (options_selector o)).

(** The rows of the collection that the selector of a connection matches. *)
Definition matching (c : MongoEntityConnection) (w : World) : list (gmap string V) :=
  selected (selector c) (collection w).

(** A cursor argument the constructor can take: absent, empty, or a
    string that decodes. *)
Definition decodable (cursor : option string) : Prop :=
  ∀ cur, cursor = Some cur → cur ≠ "" → ∃ key, explodeCursor cur = inr key.

(** No two of the rows share a key. *)
Definition uniqueKeys (sortOptions : SortSpec) (docs : list (gmap string V)) : Prop :=
  ∀ a b, a ∈ docs → b ∈ docs →
    compositeCompare sortOptions (cursorKey sortOptions a) (cursorKey sortOptions b) = Eq →
    a = b.

(** ** Facts about selectors *)

Lemma foldl_insert_lookup {X} (so : list (string * X)) (mk : nat → X → Cond V)
    (n : nat) (f : string) (c : Cond V) :
  NoDup so.*1 → n ≤ length so →
  foldl (λ (sel : gmap string (Cond V)) j, match so !! j with
                  | Some (fieldName, o) => <[fieldName := mk j o]> sel
                  | None => sel
                  end) ∅ (seq 0 n) !! f = Some c
  ↔ ∃ j o, j < n ∧ so !! j = Some (f, o) ∧ c = mk j o.
Proof.
  intros Hnd. induction n as [|n IH]; intros Hn.
  - simpl. rewrite lookup_empty. split; [done|]. intros (j & o & Hj & _). lia.
  - rewrite seq_S, foldl_app. simpl.
    destruct (lookup_lt_is_Some_2 so n) as [[f' o'] Hso]; [lia|].
    rewrite Hso, lookup_insert_Some, IH by lia. split.
    + intros [[<- <-]|[Hne (j & o & Hj & Hjo & ->)]].
      * exists n, o'. split_and!; [lia|done..].
      * exists j, o. split_and!; [lia|done..].
    + intros (j & o & Hj & Hjo & ->).
      destruct (decide (j = n)) as [->|Hjn].
      * left. rewrite Hso in Hjo. by simplify_eq.
      * right. split; [|exists j, o; split_and!; [lia|done..]].
        intros <-. apply Hjn.
        eapply (NoDup_lookup (so.*1) j n f'); [done|..];
          rewrite list_lookup_fmap; [by rewrite Hjo|by rewrite Hso].
Qed.

Lemma foldl_insert_Forall {X} (so : list (string * X)) (mk : nat → X → Cond V)
    (n : nat) (P : string → Cond V → Prop) :
  NoDup so.*1 → n ≤ length so →
  map_Forall P
    (foldl (λ (sel : gmap string (Cond V)) j, match so !! j with
                     | Some (fieldName, o) => <[fieldName := mk j o]> sel
                     | None => sel
                     end) ∅ (seq 0 n))
  ↔ ∀ j f o, j < n → so !! j = Some (f, o) → P f (mk j o).
Proof.
  intros Hnd Hn. unfold map_Forall. split.
  - intros H j f o Hj Hso. apply H.
    apply foldl_insert_lookup; [done..|]. by exists j, o.
  - intros H f c Hc. apply foldl_insert_lookup in Hc; [|done..].
    destruct Hc as (j & o & Hj & Hso & ->). by apply H.
Qed.

Lemma fieldCompares_lookup (so : SortSpec) (row : gmap string V) (key : list V)
    (j : nat) (f : string) (o : Order) :
  so !! j = Some (f, o) →
  fieldCompares so (cursorKey so row) key !! j
  = Some (dirCompare o (getField row f) (keyAt key j)).
Proof.
  intros Hso. unfold fieldCompares. rewrite list_lookup_imap, Hso. simpl.
  do 2 f_equal. unfold keyAt, cursorKey.
  by rewrite list_lookup_fmap, Hso.
Qed.

Lemma length_fieldCompares (so : SortSpec) (k1 k2 : list V) :
  length (fieldCompares so k1 k2) = length so.
Proof. unfold fieldCompares. by rewrite length_imap. Qed.

(** The operators [keyToSelector] picks, read on the directed comparison. *)
Lemma strict_holds (direction : Direction) (i : nat) (o : Order) (x k : V) :
  condHolds (COp (equalityOf direction i i o) k) x = true
  ↔ dirCompare o x k = wanted direction.
Proof.
  unfold equalityOf, dirCompare, condHolds, opHolds. rewrite Nat.eqb_refl.
  destruct direction, o; simpl; destruct (compare x k); simpl; done.
Qed.

Lemma nonstrict_holds (direction : Direction) (i j : nat) (o : Order) (x k : V) :
  i ≠ j →
  condHolds (COp (equalityOf direction i j o) k) x = true
  ↔ dirCompare o x k = wanted direction ∨ dirCompare o x k = Eq.
Proof.
  intros Hij. unfold equalityOf, dirCompare, condHolds, opHolds.
  apply Nat.eqb_neq in Hij. rewrite Hij.
  destruct direction, o; simpl; destruct (compare x k); simpl;
    (split; intros H; first [done | by left | by right | by destruct H]).
Qed.

Lemma standard_strict_holds (direction : Direction) (i : nat) (o : Order) (x k : V) :
  condHolds (standardCond direction i i o k) x = true
  ↔ dirCompare o x k = wanted direction.
Proof.
  unfold standardCond, dirCompare, condHolds, opHolds. rewrite Nat.eqb_refl.
  destruct direction, o; simpl; destruct (compare x k); simpl; done.
Qed.

Lemma standard_equal_holds (direction : Direction) (i j : nat) (o : Order) (x k : V) :
  i ≠ j →
  condHolds (standardCond direction i j o k) x = true ↔ dirCompare o x k = Eq.
Proof.
  intros Hij. unfold standardCond, dirCompare, condHolds.
  apply Nat.eqb_neq in Hij. rewrite Hij.
  destruct o; simpl; destruct (compare x k); simpl; done.
Qed.

Lemma innerLoop_holds (so : SortSpec) (key : list V) (direction : Direction)
    (i : nat) (row : gmap string V) :
  NoDup (fieldNames so) → i < length so →
  fieldsHold (innerLoop so key direction i) row = true
  ↔ looseAt (wanted direction) (fieldCompares so (cursorKey so row) key) i.
Proof.
  intros Hnd Hi. unfold fieldsHold, innerLoop, innerStep, looseAt.
  rewrite bool_decide_eq_true.
  rewrite (foldl_insert_Forall so
             (λ j o, COp (equalityOf direction i j o) (keyAt key j))) by (done || lia).
  split.
  - intros H. split.
    + destruct (lookup_lt_is_Some_2 so i Hi) as [[f o] Hso].
      rewrite (fieldCompares_lookup _ _ _ _ _ _ Hso). f_equal.
      apply (strict_holds direction i). apply (H i f o); [lia|done].
    + intros j c Hj Hc.
      destruct (lookup_lt_is_Some_2 so j) as [[f o] Hso]; [lia|].
      rewrite (fieldCompares_lookup _ _ _ _ _ _ Hso) in Hc. simplify_eq.
      apply (nonstrict_holds direction i j); [lia|]. apply (H j f o); [lia|done].
  - intros [Hi' Hlt] j f o Hj Hso.
    pose proof (fieldCompares_lookup so row key j f o Hso) as Hc.
    destruct (decide (j = i)) as [->|Hji].
    + apply strict_holds. rewrite Hi' in Hc. by simplify_eq.
    + apply nonstrict_holds; [lia|]. apply (Hlt j _); [lia|done].
Qed.

Lemma standardConj_holds (so : SortSpec) (key : list V) (direction : Direction)
    (i : nat) (row : gmap string V) :
  NoDup (fieldNames so) → i < length so →
  fieldsHold (standardConj so key direction i) row = true
  ↔ exactAt (wanted direction) (fieldCompares so (cursorKey so row) key) i.
Proof.
  intros Hnd Hi. unfold fieldsHold, standardConj, exactAt.
  rewrite bool_decide_eq_true.
  rewrite (foldl_insert_Forall so
             (λ j o, standardCond direction i j o (keyAt key j))) by (done || lia).
  split.
  - intros H. split.
    + destruct (lookup_lt_is_Some_2 so i Hi) as [[f o] Hso].
      rewrite (fieldCompares_lookup _ _ _ _ _ _ Hso). f_equal.
      apply (standard_strict_holds direction i). apply (H i f o); [lia|done].
    + intros j c Hj Hc.
      destruct (lookup_lt_is_Some_2 so j) as [[f o] Hso]; [lia|].
      rewrite (fieldCompares_lookup _ _ _ _ _ _ Hso) in Hc. simplify_eq.
      apply (standard_equal_holds direction i j); [lia|]. apply (H j f o); [lia|done].
  - intros [Hi' Hlt] j f o Hj Hso.
    pose proof (fieldCompares_lookup so row key j f o Hso) as Hc.
    destruct (decide (j = i)) as [->|Hji].
    + apply standard_strict_holds. rewrite Hi' in Hc. by simplify_eq.
    + apply standard_equal_holds; [lia|]. apply (Hlt j _); [lia|done].
Qed.

Lemma looseAt_shift (w : comparison) (cs : list comparison) (i : nat) :
  looseAt w (Eq :: cs) (S i) ↔ looseAt w cs i.
Proof.
  unfold looseAt. simpl. split; intros [Hi Hlt]; (split; [done|]).
  - intros j c Hj Hc. apply (Hlt (S j)); [lia|done].
  - intros [|j] c Hj Hc; simpl in Hc; [right; congruence|].
    apply (Hlt j); [lia|done].
Qed.

Lemma exactAt_shift (w : comparison) (cs : list comparison) (i : nat) :
  exactAt w (Eq :: cs) (S i) ↔ exactAt w cs i.
Proof.
  unfold exactAt. simpl. split; intros [Hi Hlt]; (split; [done|]).
  - intros j c Hj Hc. apply (Hlt (S j)); [lia|done].
  - intros [|j] c Hj Hc; simpl in Hc; [congruence|].
    apply (Hlt j); [lia|done].
Qed.

Lemma loose_firstDiff (w : comparison) (cs : list comparison) :
  w ≠ Eq → (∃ i, looseAt w cs i) ↔ firstDiff cs = w.
Proof.
  intros Hw. induction cs as [|c cs IH].
  - simpl. split; [intros [i [Hi _]]; by rewrite lookup_nil in Hi|congruence].
  - destruct (decide (c = Eq)) as [->|Hc].
    + simpl. rewrite <-IH. split.
      * intros [[|i] Hi]; [destruct Hi as [Hi _]; simpl in Hi; congruence|].
        exists i. by apply looseAt_shift.
      * intros [i Hi]. exists (S i). by apply looseAt_shift.
    + assert (firstDiff (c :: cs) = c) as -> by (by destruct c).
      split.
      * intros [[|i] [Hi Hlt]]; [simpl in Hi; congruence|].
        destruct (Hlt 0 c) as [?|?]; [lia|done..].
      * intros ->. exists 0. split; [done|]. intros j c Hj. lia.
Qed.

Lemma exact_firstDiff (w : comparison) (cs : list comparison) :
  w ≠ Eq → (∃ i, exactAt w cs i) ↔ firstDiff cs = w.
Proof.
  intros Hw. induction cs as [|c cs IH].
  - simpl. split; [intros [i [Hi _]]; by rewrite lookup_nil in Hi|congruence].
  - destruct (decide (c = Eq)) as [->|Hc].
    + simpl. rewrite <-IH. split.
      * intros [[|i] Hi]; [destruct Hi as [Hi _]; simpl in Hi; congruence|].
        exists i. by apply exactAt_shift.
      * intros [i Hi]. exists (S i). by apply exactAt_shift.
    + assert (firstDiff (c :: cs) = c) as -> by (by destruct c).
      split.
      * intros [[|i] [Hi Hlt]]; [simpl in Hi; congruence|].
        destruct Hc. apply (Hlt 0); [lia|done].
      * intros ->. exists 0. split; [done|]. intros j c Hj. lia.
Qed.

Lemma wanted_not_Eq (direction : Direction) : wanted direction ≠ Eq.
Proof. by destruct direction. Qed.

Lemma existsb_fmap_seq {A} (g : nat → A) (p : A → bool) (n : nat) :
  existsb p (g <$> seq 0 n) = true ↔ ∃ i, i < n ∧ p (g i) = true.
Proof.
  rewrite existsb_exists. split.
  - intros (x & Hx & Hp). apply list_elem_of_In, list_elem_of_fmap in Hx.
    destruct Hx as (i & -> & Hi). apply elem_of_seq in Hi. exists i. split; [lia|done].
  - intros (i & Hi & Hp). exists (g i). split; [|done].
    apply list_elem_of_In, list_elem_of_fmap. exists i. split; [done|].
    apply elem_of_seq. lia.
Qed.

Lemma matches_keyToSelector (so : SortSpec) (key : list V) (direction : Direction)
    (row : gmap string V) :
  NoDup (fieldNames so) →
  matches (keyToSelector so key direction) row = true
  ↔ compositeCompare so (cursorKey so row) key = wanted direction.
Proof.
  intros Hnd. unfold compositeCompare.
  rewrite <-loose_firstDiff by apply wanted_not_Eq.
  simpl. rewrite existsb_fmap_seq. split.
  - intros (i & Hi & Hm). exists i. simpl in Hm. by apply innerLoop_holds in Hm.
  - intros [i Hi]. exists i.
    assert (i < length so) as Hlt.
    { destruct Hi as [Hi _]. apply lookup_lt_Some in Hi.
      by rewrite length_fieldCompares in Hi. }
    split; [done|]. simpl. by apply innerLoop_holds.
Qed.

Lemma matches_standardKeyset (so : SortSpec) (key : list V) (direction : Direction)
    (row : gmap string V) :
  NoDup (fieldNames so) →
  matches (standardKeyset so key direction) row = true
  ↔ compositeCompare so (cursorKey so row) key = wanted direction.
Proof.
  intros Hnd. unfold compositeCompare.
  rewrite <-exact_firstDiff by apply wanted_not_Eq.
  simpl. rewrite existsb_fmap_seq. split.
  - intros (i & Hi & Hm). exists i. simpl in Hm. by apply standardConj_holds in Hm.
  - intros [i Hi]. exists i.
    assert (i < length so) as Hlt.
    { destruct Hi as [Hi _]. apply lookup_lt_Some in Hi.
      by rewrite length_fieldCompares in Hi. }
    split; [done|]. simpl. by apply standardConj_holds.
Qed.

(** ** The range predicate *)

(** C1. For a sort specification of length [N >= 1] with distinct field
    names and a key of length [N], a row matches the selector built with
    direction 'after' exactly when its key is strictly greater than the
    reference key in the composite order of the sort fields, each in its
    own direction, the first differing field deciding; and it matches the
    one built with 'before' exactly when its key is strictly less. *)
Theorem keyToSelector_selects_beyond (so : SortSpec) (key : list V)
    (row : gmap string V) :
  1 ≤ length so → length key = length so → NoDup (fieldNames so) →
  (matches (keyToSelector so key After) row = true
   ↔ compositeCompare so (cursorKey so row) key = Gt)
  ∧ (matches (keyToSelector so key Before) row = true
     ↔ compositeCompare so (cursorKey so row) key = Lt).
Proof.
  intros _ _ Hnd. split.
  - apply (matches_keyToSelector so key After row Hnd).
  - apply (matches_keyToSelector so key Before row Hnd).
Qed.

(** C10. The selector of [keyToSelector], whose [i]-th disjunct compares
    the fields before [i] non-strictly and field [i] strictly, matches
    the same rows as the keyset predicate that asks the fields before
    [i] to equal the key. *)
Theorem keyToSelector_refines_standard (so : SortSpec) (key : list V)
    (direction : Direction) (row : gmap string V) :
  NoDup (fieldNames so) →
  matches (keyToSelector so key direction) row
  = matches (standardKeyset so key direction) row.
Proof.
  intros Hnd. apply eq_true_iff_eq.
  rewrite matches_keyToSelector, matches_standardKeyset; done.
Qed.

(** ** Construction *)

Lemma fieldsHold_empty (row : gmap string V) : fieldsHold ∅ row = true.
Proof. unfold fieldsHold. apply bool_decide_eq_true, map_Forall_empty. Qed.

Lemma matches_combine (selectors : list (Selector V)) (row : gmap string V) :
  matches (combine selectors) row = forallb (λ s, matches s row) selectors.
Proof.
  destruct selectors as [|s [|s' selectors]]; simpl.
  - apply fieldsHold_empty.
  - by rewrite andb_true_r.
  - done.
Qed.

Lemma forallb_option_list (s : option (Selector V)) (rest : list (Selector V))
    (row : gmap string V) :
  forallb (λ s, matches s row) (option_list s ++ rest)
  = holdsOpt s row && forallb (λ s, matches s row) rest.
Proof. by destruct s. Qed.

Lemma truthyString_present (cursor : option string) :
  cursor ≠ Some "" → truthyString cursor = isString cursor.
Proof.
  destruct cursor as [s|]; [|done]. intros Hs. simpl.
  destruct (String.eqb_spec s ""); [congruence|done].
Qed.

Lemma decodeBound_inv (cursor : option string) (key : option (list V)) :
  cursor ≠ Some "" → decodeBound cursor = inr key →
  match cursor with
  | Some cur => ∃ k, explodeCursor cur = inr k ∧ key = Some k
  | None => key = None
  end.
Proof.
  intros Hne. unfold decodeBound. rewrite truthyString_present by done.
  destruct cursor as [cur|]; simpl; [|congruence].
  destruct (explodeCursor cur) as [e|k]; [done|].
  intros [= <-]. by exists k.
Qed.

Lemma constructor_inv (a : ConnectionArguments) (o : MongoEntityConnectionOptions)
    (c : MongoEntityConnection) :
  constructor a o = inr c →
  truthyNumber (first a) && truthyNumber (last a) = false
  ∧ ∃ ak bk,
      decodeBound (after a) = inr ak ∧ decodeBound (before a) = inr bk
      ∧ c = {| args := a; options := o;
               limit := if truthyNumber (first a) then first a
                        else if truthyNumber (last a) then last a else None;
               sortOptions := options_sortOptions o;
               afterKey := ak; beforeKey := bk;
               afterSelector :=
                 (λ key, keyToSelector (options_sortOptions o) key After) <$> ak;
               beforeSelector :=
                 (λ key, keyToSelector (options_sortOptions o) key Before) <$> bk;
               selector :=
                 combine (option_list
                            ((λ key, keyToSelector (options_sortOptions o) key After) <$> ak)
                          ++ option_list
                               ((λ key, keyToSelector (options_sortOptions o) key Before) <$> bk)
                          ++ option_list (options_selector o));
               queryPromise := None |}.
Proof.
  unfold constructor.
  destruct (truthyNumber (first a) && truthyNumber (last a)); [done|].
  destruct (decodeBound (after a)) as [e|ak]; [done|].
  destruct (decodeBound (before a)) as [e|bk]; [done|].
  intros [= <-]. split; [done|]. by exists ak, bk.
Qed.

(** When the cursors given are non-empty strings: the selector of a
    constructed connection holds of a row exactly when the 'after' range
    selector, the 'before' range selector and the caller's selector all
    do, each of them taking part exactly when its cursor or option is
    given, the range selectors being those [keyToSelector] builds from
    the decoded cursors; with no cursor and no caller's selector it
    holds of every row. *)
Theorem selector_is_conjunction (a : ConnectionArguments)
    (o : MongoEntityConnectionOptions) (c : MongoEntityConnection) :
  after a ≠ Some "" → before a ≠ Some "" →
  constructor a o = inr c →
  (∀ row, matches (selector c) row
          = holdsOpt (afterSelector c) row && holdsOpt (beforeSelector c) row
            && holdsOpt (options_selector o) row)
  ∧ match after a with
    | Some cur => ∃ k, explodeCursor cur = inr k
                       ∧ afterSelector c = Some (keyToSelector (options_sortOptions o) k After)
    | None => afterSelector c = None
    end
  ∧ match before a with
    | Some cur => ∃ k, explodeCursor cur = inr k
                       ∧ beforeSelector c = Some (keyToSelector (options_sortOptions o) k Before)
    | None => beforeSelector c = None
    end
  ∧ (after a = None → before a = None → options_selector o = None →
     ∀ row, matches (selector c) row = true).
Proof.
  intros Ha Hb Hc.
  apply constructor_inv in Hc as (_ & ak & bk & Hak & Hbk & ->). simpl.
  apply decodeBound_inv in Hak; [|done]. apply decodeBound_inv in Hbk; [|done].
  assert (∀ row,
    matches (combine (option_list
                        ((λ key, keyToSelector (options_sortOptions o) key After) <$> ak)
                      ++ option_list
                           ((λ key, keyToSelector (options_sortOptions o) key Before) <$> bk)
                      ++ option_list (options_selector o))) row
    = holdsOpt ((λ key, keyToSelector (options_sortOptions o) key After) <$> ak) row
      && holdsOpt ((λ key, keyToSelector (options_sortOptions o) key Before) <$> bk) row
      && holdsOpt (options_selector o) row) as Hconj.
  { intros row. rewrite matches_combine, !forallb_option_list.
    rewrite <-(app_nil_r (option_list (options_selector o))), forallb_option_list.
    simpl. by rewrite andb_true_r, andb_assoc. }
  split_and!.
  - done.
  - destruct (after a) as [cur|]; [|by subst].
    destruct Hak as (k & Hk & ->). by exists k.
  - destruct (before a) as [cur|]; [|by subst].
    destruct Hbk as (k & Hk & ->). by exists k.
  - intros Hna Hnb Hns row. rewrite Hconj. rewrite Hna in Hak. rewrite Hnb in Hbk.
    subst. by rewrite Hns.
Qed.

(** C4, where the code departs from it. With [first = 0] and [last = 2]
    both present, the constructor throws nothing and returns a
    connection. *)
Theorem constructor_accepts_zero_first (o : MongoEntityConnectionOptions) :
  ∃ c, constructor {| first := Some 0; last := Some 2;
                      after := None; before := None |} o = inr c.
Proof. unfold constructor. simpl. eauto. Qed.

(** C5, where the code departs from it. With [first = 0] present and no
    [last], the limit of the constructed connection is absent, not [0]. *)
Theorem limit_of_zero_first_is_absent (o : MongoEntityConnectionOptions) :
  ∃ c, constructor {| first := Some 0; last := None;
                      after := None; before := None |} o = inr c
       ∧ limit c = None.
Proof. unfold constructor. simpl. eauto. Qed.

(** C9, amended. When the constructor rejects [first] and [last] given
    together (both non-zero), the error thrown carries exactly the
    message [Argument "first" and "last" must not be included at the
    same time]. *)
Theorem first_and_last_message (n m : nat) (a b : option string)
    (o : MongoEntityConnectionOptions) :
  constructor {| first := Some (S n); last := Some (S m);
                 after := a; before := b |} o
  = inl (Error firstLastMessage).
Proof. done. Qed.

(** ** Cursors *)

(** [explodeCursor] undoes [resolveCursor] as far as the driver's BSON
    codec and the base64 conversion of [Buffer] undo each other: the
    two methods apply them in opposite order. *)
Lemma explodeCursor_resolveCursor (so : SortSpec) (item : gmap string V) :
  (∀ buffer, base64_decode (base64_encode buffer) = buffer) →
  (∀ key, bson_deserialize (bson_serialize key) = Some key) →
  explodeCursor (resolveCursor so item) = inr (cursorKey so item).
Proof.
  intros Hbase64 Hbson. unfold explodeCursor, resolveCursor.
  by rewrite Hbase64, Hbson.
Qed.

(** ** Page information *)

Lemma count_exceeds (docs : list (gmap string V)) (s : Selector V) (n : nat) :
  (n <? count docs s (n + 1)) = bool_decide (n < length (selected s docs)).
Proof.
  unfold count. apply eq_true_iff_eq.
  rewrite Nat.ltb_lt, bool_decide_eq_true. lia.
Qed.

Lemma count_one (docs : list (gmap string V)) (s : Selector V) :
  (0 <? count docs s 1) = existsb (matches s) docs.
Proof.
  unfold count, selected. apply eq_true_iff_eq.
  rewrite Nat.ltb_lt, existsb_exists. split.
  - intros Hlen. destruct (List.filter (matches s) docs) as [|row rows] eqn:Hf;
      [simpl in Hlen; lia|].
    exists row. apply filter_In. rewrite Hf. by left.
  - intros (row & Hin & Hm).
    assert (In row (List.filter (matches s) docs)) as Hrow by (by apply filter_In).
    destruct (List.filter (matches s) docs); [done|simpl; lia].
Qed.

(** When the cursors given are non-empty strings, for a constructed
    connection:
    [hasNextPage] is, with [first] given, whether the count of the
    connection's selector bounded at [first + 1] exceeds [first];
    otherwise, with [before] given, whether some row matches the 'after'
    selector of the decoded [before] cursor alone; otherwise false.
    [hasPreviousPage] is the same with [last] and the 'before' selector
    of the decoded [after] cursor. *)
Theorem pageInfo_probes (a : ConnectionArguments)
    (o : MongoEntityConnectionOptions) (c : MongoEntityConnection)
    (docs : list (gmap string V)) :
  after a ≠ Some "" → before a ≠ Some "" →
  constructor a o = inr c →
  match first a, before a with
  | Some n, _ =>
      resolveHasNextPage c docs = inr (n <? count docs (selector c) (n + 1))
  | None, Some cur =>
      ∃ k, explodeCursor cur = inr k
           ∧ resolveHasNextPage c docs
             = inr (existsb (matches (keyToSelector (options_sortOptions o) k After)) docs)
  | None, None => resolveHasNextPage c docs = inr false
  end
  ∧ match last a, after a with
    | Some n, _ =>
        resolveHasPreviousPage c docs = inr (n <? count docs (selector c) (n + 1))
    | None, Some cur =>
        ∃ k, explodeCursor cur = inr k
             ∧ resolveHasPreviousPage c docs
               = inr (existsb (matches (keyToSelector (options_sortOptions o) k Before)) docs)
    | None, None => resolveHasPreviousPage c docs = inr false
    end.
Proof.
  intros Ha Hb Hc.
  apply constructor_inv in Hc as (_ & ak & bk & Hak & Hbk & ->).
  apply decodeBound_inv in Hak; [|done]. apply decodeBound_inv in Hbk; [|done].
  unfold resolveHasNextPage, resolveHasPreviousPage. simpl. split.
  - destruct (first a) as [n|]; [done|].
    destruct (before a) as [cur|]; simpl; [|done].
    destruct Hbk as (k & Hk & ->). exists k. split; [done|].
    simpl. by rewrite count_one.
  - destruct (last a) as [n|]; [done|].
    destruct (after a) as [cur|]; simpl; [|done].
    destruct Hak as (k & Hk & ->). exists k. split; [done|].
    simpl. by rewrite count_one.
Qed.

(** ** The cached fetch *)

Lemma accesses_cached (c : MongoEntityConnection) (w : World)
    (contents : list (list (gmap string V))) (rows : list (gmap string V)) :
  queryPromise c = Some rows →
  (accesses c w contents).1.1 = replicate (length contents) rows
  ∧ (accesses c w contents).1.2 = c
  ∧ issued (accesses c w contents).2 = issued w.
Proof.
  intros Hq. revert w. induction contents as [|docs contents IH]; intros w; [done|].
  simpl. unfold getEdgeSources. rewrite Hq.
  specialize (IH {| collection := docs; issued := issued w |}).
  destruct (accesses c {| collection := docs; issued := issued w |} contents)
    as [[results c''] w'']. simpl in *. destruct IH as (-> & -> & ->). done.
Qed.

(** C8. From a connection that has not queried yet, any run of accesses
    to the edge sources sends the data source one [find] request, on the
    first access, which stores the rows of the query in [queryPromise];
    every access returns those rows, whatever the collection holds by
    then. *)
Theorem getEdgeSources_fetches_once (c : MongoEntityConnection) (w : World)
    (docs : list (gmap string V)) (contents : list (list (gmap string V))) :
  queryPromise c = None →
  (accesses c w (docs :: contents)).1.1
  = replicate (S (length contents))
      (query c {| collection := docs; issued := issued w |}).1
  ∧ queryPromise (accesses c w (docs :: contents)).1.2
    = Some (query c {| collection := docs; issued := issued w |}).1
  ∧ issued (accesses c w (docs :: contents)).2 = issued w ++ [requestOf c].
Proof.
  intros Hq. simpl. unfold getEdgeSources. rewrite Hq.
  destruct (query c {| collection := docs; issued := issued w |}) as [rows w'] eqn:Hquery.
  match goal with |- context [accesses ?c' w' contents] =>
    destruct (accesses_cached c' w' contents rows eq_refl) as (Hres & Hconn & Hiss);
    destruct (accesses c' w' contents) as [[results c''] w''] end.
  simpl in *. unfold query in Hquery. injection Hquery as <- <-.
  rewrite Hres, Hconn, Hiss. done.
Qed.

(** ** Backward paging *)

Section Comparison.
Context {A : Type} (cmp : A → A → comparison).
Hypothesis cmp_antisym : ∀ x y, cmp y x = CompOpp (cmp x y).
Hypothesis cmp_trans : ∀ c x y z, cmp x y = c → cmp y z = c → cmp x z = c.

Lemma cmp_eq_l (c : comparison) (x y z : A) :
  cmp x y = Eq → cmp y z = c → cmp x z = c.
Proof.
  intros Hxy Hyz.
  assert (cmp y x = Eq) as Hyx by (by rewrite cmp_antisym, Hxy).
  destruct (cmp x z) eqn:Hxz.
  - by rewrite <-Hyz, (cmp_trans Eq y x z).
  - destruct c; [|done|].
    + pose proof (cmp_trans Eq x y z Hxy Hyz). congruence.
    + assert (cmp z y = Lt) as Hzy by (by rewrite cmp_antisym, Hyz).
      pose proof (cmp_trans Lt x z y Hxz Hzy). congruence.
  - destruct c; [| |done].
    + pose proof (cmp_trans Eq x y z Hxy Hyz). congruence.
    + assert (cmp z x = Lt) as Hzx by (by rewrite cmp_antisym, Hxz).
      pose proof (cmp_trans Lt y z x Hyz Hzx). congruence.
Qed.

Lemma cmp_eq_r (c : comparison) (x y z : A) :
  cmp x y = c → cmp y z = Eq → cmp x z = c.
Proof.
  intros Hxy Hyz.
  assert (cmp z y = Eq) as Hzy by (by rewrite cmp_antisym, Hyz).
  assert (cmp y x = CompOpp c) as Hyx by (by rewrite cmp_antisym, Hxy).
  pose proof (cmp_eq_l (CompOpp c) z y x Hzy Hyx) as Hzx.
  rewrite cmp_antisym, Hzx. by destruct c.
Qed.

Lemma cmp_le_trans (x y z : A) :
  cmp x y ≠ Gt → cmp y z ≠ Gt → cmp x z ≠ Gt.
Proof.
  intros Hxy Hyz.
  destruct (cmp x y) eqn:Exy; [|clear Hxy|done].
  - by rewrite (cmp_eq_l (cmp y z) x y z Exy eq_refl).
  - destruct (cmp y z) eqn:Eyz; [| |done].
    + by rewrite (cmp_eq_r Lt x y z Exy Eyz).
    + by rewrite (cmp_trans Lt x y z Exy Eyz).
Qed.

Lemma cmp_le_total (x y : A) : cmp x y ≠ Gt ∨ cmp y x ≠ Gt.
Proof. rewrite (cmp_antisym x y). destruct (cmp x y); auto. Qed.

Lemma cmp_le_antisym (x y : A) : cmp x y ≠ Gt → cmp y x ≠ Gt → cmp x y = Eq.
Proof. rewrite (cmp_antisym x y). by destruct (cmp x y). Qed.
End Comparison.

Lemma Sorted_weaken {A} (R1 R2 : relation A) (l : list A) :
  (∀ x y, R1 x y → R2 x y) → Sorted R1 l → Sorted R2 l.
Proof.
  intros HR. induction 1 as [|x l Hl IH Hhd]; constructor; [done|].
  destruct Hhd; constructor; auto.
Qed.

Lemma fieldCompares_cons (fo : string * Order) (so : SortSpec) (k1 k2 : list V) :
  fieldCompares (fo :: so) k1 k2
  = dirCompare fo.2 (keyAt k1 0) (keyAt k2 0) :: fieldCompares so (tail k1) (tail k2).
Proof.
  unfold fieldCompares. rewrite imap_cons. f_equal.
  apply imap_ext. intros j x _. simpl. unfold keyAt. by rewrite !lookup_tail.
Qed.

(** The order a reversed query sorts by. *)
Lemma reversed_order (so : SortSpec) :
  (λ fo, (fo.1, Order_of_Z fo.2)) <$> appliedSortOrder so true
  = (λ fo, (fo.1, match fo.2 with Asc => Desc | Desc => Asc end)) <$> so.
Proof.
  unfold appliedSortOrder. rewrite <-list_fmap_compose.
  apply list_fmap_ext. intros _ [f []] _; done.
Qed.

Lemma natural_order (so : SortSpec) :
  (λ fo, (fo.1, Order_of_Z fo.2)) <$> appliedSortOrder so false = so.
Proof.
  unfold appliedSortOrder. rewrite <-list_fmap_compose.
  rewrite <-(list_fmap_id so) at 2.
  apply list_fmap_ext. intros _ [f []] _; done.
Qed.

Lemma cursorKey_flipped (so : SortSpec) (row : gmap string V) :
  cursorKey ((λ fo, (fo.1, match fo.2 with Asc => Desc | Desc => Asc end)) <$> so) row
  = cursorKey so row.
Proof. unfold cursorKey. rewrite <-list_fmap_compose. by apply list_fmap_ext. Qed.

Lemma compositeCompare_flipped (so : SortSpec) (k1 k2 : list V) :
  compositeCompare ((λ fo, (fo.1, match fo.2 with Asc => Desc | Desc => Asc end)) <$> so) k1 k2
  = CompOpp (compositeCompare so k1 k2).
Proof.
  unfold compositeCompare. revert k1 k2.
  induction so as [|[f o] so IH]; intros k1 k2; [done|].
  rewrite fmap_cons, !fieldCompares_cons. simpl. rewrite IH.
  unfold dirCompare. destruct o; simpl; destruct (compare (keyAt k1 0) (keyAt k2 0)); done.
Qed.

Hypothesis compare_antisym : ∀ x y, compare y x = CompOpp (compare x y).
Hypothesis compare_trans :
  ∀ c x y z, compare x y = c → compare y z = c → compare x z = c.

Lemma dirCompare_antisym (o : Order) (x y : V) :
  dirCompare o y x = CompOpp (dirCompare o x y).
Proof. unfold dirCompare. destruct (is_one o); by rewrite compare_antisym. Qed.

Lemma dirCompare_trans (o : Order) (c : comparison) (x y z : V) :
  dirCompare o x y = c → dirCompare o y z = c → dirCompare o x z = c.
Proof.
  unfold dirCompare. destruct (is_one o); [apply compare_trans|].
  intros Hxy Hyz. rewrite (compare_trans (CompOpp c) x y z).
  - by destruct c.
  - rewrite <-Hxy. by destruct (compare x y).
  - rewrite <-Hyz. by destruct (compare y z).
Qed.

Lemma compositeCompare_antisym (so : SortSpec) (k1 k2 : list V) :
  compositeCompare so k2 k1 = CompOpp (compositeCompare so k1 k2).
Proof.
  unfold compositeCompare. revert k1 k2.
  induction so as [|[f o] so IH]; intros k1 k2; [done|].
  rewrite !fieldCompares_cons. simpl. rewrite IH, dirCompare_antisym.
  by destruct (dirCompare o (keyAt k1 0) (keyAt k2 0)).
Qed.

Lemma compositeCompare_trans (so : SortSpec) (c : comparison) (k1 k2 k3 : list V) :
  compositeCompare so k1 k2 = c → compositeCompare so k2 k3 = c →
  compositeCompare so k1 k3 = c.
Proof.
  unfold compositeCompare. revert k1 k2 k3.
  induction so as [|[f o] so IH]; intros k1 k2 k3; [done|].
  rewrite !fieldCompares_cons. simpl.
  destruct (dirCompare o (keyAt k1 0) (keyAt k2 0)) eqn:E12;
    destruct (dirCompare o (keyAt k2 0) (keyAt k3 0)) eqn:E23.
  - rewrite (dirCompare_trans o Eq _ _ _ E12 E23). apply IH.
  - rewrite (cmp_eq_l (dirCompare o) (dirCompare_antisym o) (dirCompare_trans o)
               Lt _ _ _ E12 E23). by intros _ ->.
  - rewrite (cmp_eq_l (dirCompare o) (dirCompare_antisym o) (dirCompare_trans o)
               Gt _ _ _ E12 E23). by intros _ ->.
  - rewrite (cmp_eq_r (dirCompare o) (dirCompare_antisym o) (dirCompare_trans o)
               Lt _ _ _ E12 E23). by intros ->.
  - rewrite (dirCompare_trans o Lt _ _ _ E12 E23). by intros ->.
  - by intros <-.
  - rewrite (cmp_eq_r (dirCompare o) (dirCompare_antisym o) (dirCompare_trans o)
               Gt _ _ _ E12 E23). by intros ->.
  - by intros <-.
  - rewrite (dirCompare_trans o Gt _ _ _ E12 E23). by intros ->.
Qed.

#[local] Instance rowLe_total (so : SortSpec) : Total (rowLe so).
Proof.
  intros a b. unfold rowLe.
  apply (cmp_le_total (compositeCompare so) (compositeCompare_antisym so)).
Qed.

#[local] Instance rowLe_transitive (so : SortSpec) : Transitive (rowLe so).
Proof.
  intros a b c. unfold rowLe.
  apply (cmp_le_trans (compositeCompare so) (compositeCompare_antisym so)
           (compositeCompare_trans so)).
Qed.

Lemma rowLe_flipped (so : SortSpec) (a b : gmap string V) :
  rowLe ((λ fo, (fo.1, match fo.2 with Asc => Desc | Desc => Asc end)) <$> so) a b
  → rowLe so b a.
Proof.
  unfold rowLe. rewrite !cursorKey_flipped, compositeCompare_flipped.
  rewrite (compositeCompare_antisym so (cursorKey so b) (cursorKey so a)).
  by destruct (compositeCompare so (cursorKey so b) (cursorKey so a)).
Qed.

(** Sorting by the inverted directions and reversing is sorting by the
    directions themselves, when no two rows share a key. *)
Lemma reverse_sort_flipped (so : SortSpec) (docs : list (gmap string V)) :
  uniqueKeys so docs →
  reverse (merge_sort
             (rowLe ((λ fo, (fo.1, match fo.2 with Asc => Desc | Desc => Asc end)) <$> so))
             docs)
  = merge_sort (rowLe so) docs.
Proof.
  intros Huniq. apply (StronglySorted_unique_strong (rowLe so)).
  - intros x y Hx Hy Hxy Hyx. apply Huniq.
    + by rewrite elem_of_reverse, merge_sort_Permutation in Hx.
    + by rewrite merge_sort_Permutation in Hy.
    + by apply (cmp_le_antisym (compositeCompare so) (compositeCompare_antisym so)).
  - apply Sorted_StronglySorted; [apply _|].
    eapply Sorted_weaken; [|apply Sorted_reverse, Sorted_merge_sort, _].
    intros x y. apply rowLe_flipped.
  - apply StronglySorted_merge_sort; apply _.
  - by rewrite reverse_Permutation, !merge_sort_Permutation.
Qed.

(** Without [last] the edge sources are the matching rows in the order
    of the sort options, cut at the limit. *)
Lemma forward_returns_head (a : ConnectionArguments)
    (o : MongoEntityConnectionOptions) (c : MongoEntityConnection) (w : World) :
  constructor a o = inr c → last a = None →
  (getEdgeSources c w).1.1
  = truncate (limit c) (ascending (options_sortOptions o) (selector c) (collection w)).
Proof.
  intros Hc Hlast.
  apply constructor_inv in Hc as (_ & ak & bk & _ & _ & ->).
  unfold getEdgeSources, query, find, ascending. simpl.
  rewrite Hlast. simpl. by rewrite natural_order.
Qed.

(** X16. What [last = k] gives for [k >= 1], no two matching rows
    sharing a key: the final [k] of the matching rows in the order of
    the sort options, and a previous page exactly when more than [k]
    rows match. *)
Lemma last_positive_returns_tail (a : ConnectionArguments)
    (o : MongoEntityConnectionOptions) (c : MongoEntityConnection)
    (w : World) (k : nat) :
  constructor a o = inr c → last a = Some (S k) →
  uniqueKeys (options_sortOptions o) (selected (selector c) (collection w)) →
  (getEdgeSources c w).1.1
  = drop (length (selected (selector c) (collection w)) - S k)
      (ascending (options_sortOptions o) (selector c) (collection w))
  ∧ resolveHasPreviousPage c (collection w)
    = inr (bool_decide (S k < length (selected (selector c) (collection w)))).
Proof.
  intros Hc Hlast Huniq.
  apply constructor_inv in Hc as (Hboth & ak & bk & _ & _ & ->).
  rewrite Hlast in Hboth. simpl in Hboth. rewrite andb_true_r in Hboth.
  simpl in Huniq |- *. split.
  - unfold getEdgeSources, query, find, ascending. simpl.
    rewrite Hlast, Hboth. simpl. rewrite reversed_order.
    rewrite reverse_take, reverse_sort_flipped by done.
    f_equal. f_equal. by rewrite merge_sort_Permutation.
  - unfold resolveHasPreviousPage. simpl. rewrite Hlast.
    by rewrite count_exceeds.
Qed.

(** ** What a query returns *)

Lemma getEdgeSources_fresh (c : MongoEntityConnection) (w : World) :
  queryPromise c = None → (getEdgeSources c w).1.1 = (query c w).1.
Proof. intros Hq. unfold getEdgeSources. by rewrite Hq. Qed.

Lemma query_rows (c : MongoEntityConnection) (w : World) :
  (query c w).1
  = if isNumber (last (args c))
    then reverse (truncate (limit c)
                    (merge_sort (rowLe (inverted (sortOptions c))) (matching c w)))
    else truncate (limit c) (merge_sort (rowLe (sortOptions c)) (matching c w)).
Proof.
  unfold query, find, matching, inverted. simpl.
  destruct (isNumber (last (args c))); by rewrite ?reversed_order, ?natural_order.
Qed.

Lemma length_truncate (limit : option nat) (docs : list (gmap string V)) :
  length (truncate limit docs)
  = match limit with Some n => n `min` length docs | None => length docs end.
Proof. destruct limit; simpl; [apply length_take|done]. Qed.

Lemma truncate_subseteq (limit : option nat) (docs : list (gmap string V)) :
  truncate limit docs ⊆ docs.
Proof. destruct limit; simpl; [apply subseteq_take|done]. Qed.

Lemma elem_of_selected (s : Selector V) (docs : list (gmap string V))
    (row : gmap string V) :
  row ∈ selected s docs ↔ row ∈ docs ∧ matches s row = true.
Proof. unfold selected. by rewrite !list_elem_of_In, filter_In. Qed.

(** X1. Whatever the arguments, the edge sources of a connection that
    has not queried yet are rows of the collection that match its
    selector, and there are as many of them as the limit allows: the
    smaller of the limit and the number of matching rows, or all the
    matching rows when there is no limit. *)
Theorem edges_bounded_and_matching (c : MongoEntityConnection) (w : World) :
  queryPromise c = None →
  length (getEdgeSources c w).1.1
  = match limit c with
    | Some n => n `min` length (matching c w)
    | None => length (matching c w)
    end
  ∧ ∀ row, row ∈ (getEdgeSources c w).1.1 →
           row ∈ collection w ∧ matches (selector c) row = true.
Proof.
  intros Hq. rewrite getEdgeSources_fresh, query_rows by done. split.
  - destruct (isNumber (last (args c)));
      rewrite ?length_reverse, length_truncate;
      by rewrite (Permutation_length (merge_sort_Permutation _ _)).
  - intros row Hrow. apply elem_of_selected. fold (matching c w).
    destruct (isNumber (last (args c)));
      [rewrite elem_of_reverse in Hrow|];
      apply truncate_subseteq in Hrow;
      by rewrite merge_sort_Permutation in Hrow.
Qed.

Lemma Sorted_take {A} (R : relation A) (l : list A) (n : nat) :
  Sorted R l → Sorted R (take n l).
Proof.
  intros Hl. revert n. induction Hl as [|x l Hl IH Hhd]; intros [|n]; simpl;
    try constructor; [apply IH|].
  destruct Hhd; destruct n; simpl; constructor; done.
Qed.

Lemma Sorted_truncate (R : relation (gmap string V)) (limit : option nat)
    (docs : list (gmap string V)) :
  Sorted R docs → Sorted R (truncate limit docs).
Proof. destruct limit; simpl; [apply Sorted_take|done]. Qed.

(** X2. The edge sources always come in the order of the sort options,
    each field in its own direction: for a backward query ([last]
    given), which fetches in the inverted directions, as much as for a
    forward one. *)
Theorem edges_sorted (c : MongoEntityConnection) (w : World) :
  queryPromise c = None →
  Sorted (rowLe (sortOptions c)) (getEdgeSources c w).1.1.
Proof.
  intros Hq. rewrite getEdgeSources_fresh, query_rows by done.
  destruct (isNumber (last (args c))).
  - eapply Sorted_weaken;
      [|apply Sorted_reverse, Sorted_truncate, Sorted_merge_sort, _].
    intros x y. apply rowLe_flipped.
  - apply Sorted_truncate, Sorted_merge_sort, _.
Qed.

(** ** Outcomes of the constructor *)

Lemma decodeBound_inr (cursor : option string) (key : option (list V)) :
  decodeBound cursor = inr key → decodable cursor.
Proof.
  unfold decodeBound, decodable. intros Hd cur -> Hne. simpl in Hd.
  destruct (String.eqb_spec cur ""); [done|]. simpl in Hd.
  destruct (explodeCursor cur) as [e|k]; [done|]. by exists k.
Qed.

Lemma decodeBound_inl (cursor : option string) (e : Exception) :
  decodeBound cursor = inl e → e = BsonError ∧ ¬ decodable cursor.
Proof.
  unfold decodeBound, decodable. destruct cursor as [cur|]; [|done]. simpl.
  destruct (String.eqb_spec cur "") as [|Hne]; [done|]. simpl.
  unfold explodeCursor.
  destruct (bson_deserialize (base64_decode cur)) eqn:Hcur; [done|].
  intros [= <-]. split; [done|]. intros Hdec.
  destruct (Hdec cur eq_refl Hne) as [key Hkey].
  unfold explodeCursor in Hkey. by rewrite Hcur in Hkey.
Qed.

(** X3. The constructor returns a connection exactly when [first] and
    [last] are not both non-zero and each non-empty cursor decodes.
    Otherwise it throws: the error of the [first]/[last] guard when both
    are non-zero, whatever the cursors are, and else the error of the
    decoder for a cursor that does not decode. *)
Theorem constructor_outcome (a : ConnectionArguments)
    (o : MongoEntityConnectionOptions) :
  match constructor a o with
  | inr c =>
      truthyNumber (first a) && truthyNumber (last a) = false
      ∧ decodable (after a) ∧ decodable (before a)
  | inl e =>
      (truthyNumber (first a) && truthyNumber (last a) = true
       ∧ e = Error firstLastMessage)
      ∨ (truthyNumber (first a) && truthyNumber (last a) = false
         ∧ e = BsonError
         ∧ (¬ decodable (after a) ∨ ¬ decodable (before a)))
  end.
Proof.
  unfold constructor.
  destruct (truthyNumber (first a) && truthyNumber (last a)); [by left|].
  destruct (decodeBound (after a)) as [e|ak] eqn:Ha.
  { apply decodeBound_inl in Ha as [-> Ha]. right. auto. }
  destruct (decodeBound (before a)) as [e|bk] eqn:Hb.
  { apply decodeBound_inl in Hb as [-> Hb]. right. auto. }
  split_and!; [done|by eapply decodeBound_inr..].
Qed.

(** X4. The limit of a constructed connection is never [0]: it is
    [first] when that is non-zero, else [last] when that is non-zero,
    and it is absent exactly when neither is non-zero. *)
Theorem limit_never_zero (a : ConnectionArguments)
    (o : MongoEntityConnectionOptions) (c : MongoEntityConnection) :
  constructor a o = inr c →
  limit c ≠ Some 0
  ∧ (∀ n, limit c = Some n →
          first a = Some n ∨ (truthyNumber (first a) = false ∧ last a = Some n))
  ∧ (limit c = None ↔ truthyNumber (first a) = false ∧ truthyNumber (last a) = false).
Proof.
  intros Hc. apply constructor_inv in Hc as (_ & ak & bk & _ & _ & ->). simpl.
  destruct (first a) as [[|n]|], (last a) as [[|m]|]; simpl;
    (split_and!;
       [done
       |intros k Hk; simplify_eq; auto
       |split; [intros ?; by simplify_eq|intros [??]; by simplify_eq]]).
Qed.

(** X5. An empty string given as a cursor is not decoded: the
    constructor succeeds with no key and no range selector for it.  The
    page-information probe that reads that key then throws a type
    error, as soon as there is a sort field and the probe is not driven
    by [last] (for [after]) or [first] (for [before]). *)
Theorem empty_cursor_is_ignored (a : ConnectionArguments)
    (o : MongoEntityConnectionOptions) (c : MongoEntityConnection)
    (docs : list (gmap string V)) :
  constructor a o = inr c →
  (after a = Some "" →
   afterKey c = None ∧ afterSelector c = None
   ∧ (last a = None → options_sortOptions o ≠ [] →
      resolveHasPreviousPage c docs = inl TypeError))
  ∧ (before a = Some "" →
     beforeKey c = None ∧ beforeSelector c = None
     ∧ (first a = None → options_sortOptions o ≠ [] →
        resolveHasNextPage c docs = inl TypeError)).
Proof.
  intros Hc. apply constructor_inv in Hc as (_ & ak & bk & Hak & Hbk & ->).
  unfold resolveHasPreviousPage, resolveHasNextPage. simpl. split.
  - intros Ha. rewrite Ha in Hak |- *. injection Hak as <-. simpl.
    split_and!; [done..|]. intros -> Hso. by destruct (options_sortOptions o).
  - intros Hb. rewrite Hb in Hbk |- *. injection Hbk as <-. simpl.
    split_and!; [done..|]. intros -> Hso. by destruct (options_sortOptions o).
Qed.

(** C7, where the code departs from it. With [after] given as the empty
    string, the constructor builds no 'after' range selector: the
    selector of the connection is the caller's selector alone ([{}] when
    there is none), although the argument is present. *)
Theorem empty_after_adds_no_conjunct (o : MongoEntityConnectionOptions) :
  ∃ c, constructor {| first := None; last := None;
                      after := Some ""; before := None |} o = inr c
       ∧ afterSelector c = None
       ∧ selector c = baseSelector o
       ∧ (options_selector o = None → selector c = Fields ∅).
Proof.
  unfold constructor, baseSelector. simpl. eexists. split; [reflexivity|]. simpl.
  split_and!; [done..|]. by intros ->.
Qed.

(** C3, where the code departs from it. With [before] given as the
    empty string and no [first], on a connection with at least one sort
    field, [hasNextPage] does not resolve: the constructor has decoded
    no key, and the probe throws a type error reading it.  With [after]
    the empty string and no [last], [hasPreviousPage] likewise. *)
Theorem page_probe_throws_on_empty_cursor (fo : string * Order) (so : SortSpec)
    (s : option (Selector V)) (docs : list (gmap string V)) :
  (∃ c, constructor {| first := None; last := None;
                       after := None; before := Some "" |}
          {| options_sortOptions := fo :: so; options_selector := s |} = inr c
        ∧ resolveHasNextPage c docs = inl TypeError)
  ∧ (∃ c, constructor {| first := None; last := None;
                         after := Some ""; before := None |}
            {| options_sortOptions := fo :: so; options_selector := s |} = inr c
          ∧ resolveHasPreviousPage c docs = inl TypeError).
Proof.
  unfold constructor. simpl. split; (eexists; split; [reflexivity|done]).
Qed.

(** ** More on the range selectors *)

Lemma compositeCompare_refl (so : SortSpec) (k : list V) :
  (∀ x, compare x x = Eq) → compositeCompare so k k = Eq.
Proof.
  intros Hrefl. unfold compositeCompare. revert k.
  induction so as [|[f o] so IH]; intros k; [done|].
  rewrite fieldCompares_cons. simpl. unfold dirCompare.
  rewrite Hrefl. destruct (is_one o); apply IH.
Qed.

(** X6. The row a cursor was taken from is on neither side of it: it
    matches neither the 'after' nor the 'before' selector built from its
    own key (the comparison holding a value equal to itself). *)
Theorem own_cursor_excluded (so : SortSpec) (direction : Direction)
    (row : gmap string V) :
  NoDup (fieldNames so) → (∀ x, compare x x = Eq) →
  matches (keyToSelector so (cursorKey so row) direction) row = false.
Proof.
  intros Hnd Hrefl. apply not_true_is_false. intros Hm.
  apply matches_keyToSelector in Hm; [|done].
  rewrite compositeCompare_refl in Hm by done.
  by destruct direction.
Qed.

(** X7. For one reference key the 'after' and the 'before' selector
    never match the same row, and a row that matches neither has a key
    equal to the reference key in every sort field. *)
Theorem after_before_partition (so : SortSpec) (key : list V)
    (row : gmap string V) :
  NoDup (fieldNames so) →
  match compositeCompare so (cursorKey so row) key with
  | Gt => matches (keyToSelector so key After) row = true
          ∧ matches (keyToSelector so key Before) row = false
  | Lt => matches (keyToSelector so key After) row = false
          ∧ matches (keyToSelector so key Before) row = true
  | Eq => matches (keyToSelector so key After) row = false
          ∧ matches (keyToSelector so key Before) row = false
  end.
Proof.
  intros Hnd.
  destruct (compositeCompare so (cursorKey so row) key) eqn:E; split;
    first [ apply matches_keyToSelector; [done|]; by rewrite E
          | apply not_true_iff_false; rewrite matches_keyToSelector by done;
            by rewrite E ].
Qed.

Lemma fieldNames_inverted (so : SortSpec) : fieldNames (inverted so) = fieldNames so.
Proof.
  unfold fieldNames, inverted. rewrite <-list_fmap_compose. by apply list_fmap_ext.
Qed.

(** X8. Inverting the direction of every sort field exchanges 'after'
    and 'before': the 'after' selector under the inverted directions
    matches the rows the 'before' selector matches under the given ones,
    and the other way round. *)
Theorem inverted_swaps_directions (so : SortSpec) (key : list V)
    (row : gmap string V) :
  NoDup (fieldNames so) →
  matches (keyToSelector (inverted so) key After) row
  = matches (keyToSelector so key Before) row
  ∧ matches (keyToSelector (inverted so) key Before) row
    = matches (keyToSelector so key After) row.
Proof.
  intros Hnd.
  assert (NoDup (fieldNames (inverted so))) as Hnd' by (by rewrite fieldNames_inverted).
  split; apply eq_true_iff_eq;
    rewrite !matches_keyToSelector by done;
    unfold inverted; rewrite cursorKey_flipped, compositeCompare_flipped; simpl;
    by destruct (compositeCompare so (cursorKey so row) key).
Qed.

Lemma matches_baseSelector (o : MongoEntityConnectionOptions) (row : gmap string V) :
  matches (baseSelector o) row = holdsOpt (options_selector o) row.
Proof.
  unfold baseSelector. rewrite matches_combine.
  rewrite <-(app_nil_r (option_list (options_selector o))), forallb_option_list.
  simpl. by rewrite andb_true_r.
Qed.

Lemma matches_constructed (o : MongoEntityConnectionOptions)
    (ak bk : option (list V)) (row : gmap string V) :
  matches (combine (option_list
                      ((λ key, keyToSelector (options_sortOptions o) key After) <$> ak)
                    ++ option_list
                         ((λ key, keyToSelector (options_sortOptions o) key Before) <$> bk)
                    ++ option_list (options_selector o))) row
  = holdsOpt ((λ key, keyToSelector (options_sortOptions o) key After) <$> ak) row
    && holdsOpt ((λ key, keyToSelector (options_sortOptions o) key Before) <$> bk) row
    && matches (baseSelector o) row.
Proof.
  rewrite matches_combine, !forallb_option_list, matches_baseSelector.
  rewrite <-(app_nil_r (option_list (options_selector o))), forallb_option_list.
  simpl. by rewrite andb_true_r, andb_assoc.
Qed.

(** X9. With both cursors given, the selector of the connection matches
    exactly the rows whose key is strictly greater than the decoded
    [after] key and strictly less than the decoded [before] key in the
    composite order, and that the caller's selector matches. *)
Theorem selector_between (a : ConnectionArguments)
    (o : MongoEntityConnectionOptions) (c : MongoEntityConnection)
    (ca cb : string) (ka kb : list V) (row : gmap string V) :
  NoDup (fieldNames (options_sortOptions o)) →
  constructor a o = inr c →
  after a = Some ca → ca ≠ "" → explodeCursor ca = inr ka →
  before a = Some cb → cb ≠ "" → explodeCursor cb = inr kb →
  matches (selector c) row = true
  ↔ compositeCompare (options_sortOptions o)
      (cursorKey (options_sortOptions o) row) ka = Gt
    ∧ compositeCompare (options_sortOptions o)
        (cursorKey (options_sortOptions o) row) kb = Lt
    ∧ matches (baseSelector o) row = true.
Proof.
  intros Hnd Hc Ha Hca Hka Hb Hcb Hkb.
  apply constructor_inv in Hc as (_ & ak & bk & Hak & Hbk & ->). simpl.
  apply decodeBound_inv in Hak; [|by rewrite Ha; intros [= ->]].
  apply decodeBound_inv in Hbk; [|by rewrite Hb; intros [= ->]].
  rewrite Ha in Hak. rewrite Hb in Hbk.
  destruct Hak as (ka' & Hka' & ->). destruct Hbk as (kb' & Hkb' & ->).
  rewrite Hka in Hka'. injection Hka' as <-.
  rewrite Hkb in Hkb'. injection Hkb' as <-.
  rewrite matches_constructed. simpl. rewrite !andb_true_iff.
  rewrite (matches_keyToSelector _ ka After row Hnd).
  rewrite (matches_keyToSelector _ kb Before row Hnd). simpl.
  split; [intros [[??]?]|intros (?&?&?)]; done.
Qed.

(** X10. A page-information probe driven by a cursor reads that cursor
    and the sort options only: [hasNextPage] without [first] is the same
    for any two connections with the same [before] and the same sort
    options, whatever their [after], [last] and caller's selector are;
    and [hasPreviousPage] without [last] likewise for [after]. *)
Theorem cursor_probe_ignores_the_rest (a1 a2 : ConnectionArguments)
    (o1 o2 : MongoEntityConnectionOptions) (c1 c2 : MongoEntityConnection)
    (docs : list (gmap string V)) :
  constructor a1 o1 = inr c1 → constructor a2 o2 = inr c2 →
  options_sortOptions o1 = options_sortOptions o2 →
  (first a1 = None → first a2 = None → before a1 = before a2 →
   resolveHasNextPage c1 docs = resolveHasNextPage c2 docs)
  ∧ (last a1 = None → last a2 = None → after a1 = after a2 →
     resolveHasPreviousPage c1 docs = resolveHasPreviousPage c2 docs).
Proof.
  intros Hc1 Hc2 Hso.
  apply constructor_inv in Hc1 as (_ & ak1 & bk1 & Hak1 & Hbk1 & ->).
  apply constructor_inv in Hc2 as (_ & ak2 & bk2 & Hak2 & Hbk2 & ->).
  unfold resolveHasNextPage, resolveHasPreviousPage. simpl. split.
  - intros -> -> Hb. rewrite Hb, Hbk2 in Hbk1. injection Hbk1 as <-.
    by rewrite Hb, Hso.
  - intros -> -> Ha. rewrite Ha, Hak2 in Hak1. injection Hak1 as <-.
    by rewrite Ha, Hso.
Qed.

Lemma foldl_ext_in {A B} (f g : A → B → A) (a : A) (l : list B) :
  (∀ a x, x ∈ l → f a x = g a x) → foldl f a l = foldl g a l.
Proof.
  revert a. induction l as [|x l IH]; intros a Hfg; [done|]. simpl.
  rewrite Hfg by left. apply IH. intros a' y Hy. apply Hfg. by right.
Qed.

Lemma keyToSelector_ext (so : SortSpec) (k1 k2 : list V) (direction : Direction) :
  (∀ j, j < length so → keyAt k1 j = keyAt k2 j) →
  keyToSelector so k1 direction = keyToSelector so k2 direction.
Proof.
  intros Hk. unfold keyToSelector. f_equal.
  apply list_fmap_ext. intros idx i Hi.
  apply lookup_seq in Hi as [-> Hi]. simpl. f_equal.
  unfold innerLoop. apply foldl_ext_in. intros sel j Hj.
  apply elem_of_seq in Hj. unfold innerStep.
  destruct (so !! j) as [[f ord]|]; [|done]. simpl. by rewrite Hk by lia.
Qed.

(** X11. [keyToSelector] reads the key at the positions of the sort
    fields only: components beyond them change nothing, and a key that
    is too short is read as if it were filled up with [undefined]. *)
Theorem keyToSelector_key_bounds (so : SortSpec) (key : list V)
    (direction : Direction) :
  (∀ n, keyToSelector so (key ++ replicate n undefined) direction
        = keyToSelector so key direction)
  ∧ (∀ extra, length so ≤ length key →
              keyToSelector so (key ++ extra) direction
              = keyToSelector so key direction).
Proof.
  split.
  - intros n. apply keyToSelector_ext. intros j _. unfold keyAt.
    destruct (decide (j < length key)) as [Hj|Hj].
    + by rewrite lookup_app_l.
    + rewrite lookup_app_r, (lookup_ge_None_2 key j) by lia. simpl.
      destruct (replicate n undefined !! (j - length key)) as [x|] eqn:Hx; [|done].
      apply lookup_replicate in Hx as [-> _]. done.
  - intros extra Hlen. apply keyToSelector_ext. intros j Hj. unfold keyAt.
    by rewrite lookup_app_l by lia.
Qed.

(** ** Pages that follow one another *)

Lemma List_filter_Permutation {A} (p : A → bool) (l1 l2 : list A) :
  l1 ≡ₚ l2 → List.filter p l1 ≡ₚ List.filter p l2.
Proof.
  induction 1 as [|x l1 l2 _ IH|x y l|l1 l2 l3 _ IH1 _ IH2]; simpl.
  - done.
  - destruct (p x); by rewrite IH.
  - destruct (p x), (p y); try done. apply perm_swap.
  - by rewrite IH1.
Qed.

Lemma List_filter_andb {A} (p q : A → bool) (l : list A) :
  List.filter (λ x, p x && q x) l = List.filter p (List.filter q l).
Proof.
  induction l as [|x l IH]; [done|]. simpl.
  destruct (q x); simpl; destruct (p x); simpl; by rewrite IH.
Qed.

Lemma List_filter_cons {A} (p : A → bool) (x : A) (l : list A) :
  List.filter p (x :: l) = if p x then x :: List.filter p l else List.filter p l.
Proof. done. Qed.

Lemma List_filter_none {A} (p : A → bool) (l : list A) :
  (∀ x, x ∈ l → p x = false) → List.filter p l = [].
Proof.
  induction l as [|x l IH]; intros Hp; [done|]. simpl.
  rewrite (Hp x) by left. apply IH. intros y Hy. apply Hp. by right.
Qed.

Lemma List_filter_all {A} (p : A → bool) (l : list A) :
  (∀ x, x ∈ l → p x = true) → List.filter p l = l.
Proof.
  induction l as [|x l IH]; intros Hp; [done|]. simpl.
  rewrite (Hp x) by left. f_equal. apply IH. intros y Hy. apply Hp. by right.
Qed.

Lemma StronglySorted_List_filter {A} (R : relation A) (p : A → bool) (l : list A) :
  StronglySorted R l → StronglySorted R (List.filter p l).
Proof.
  induction 1 as [|x l Hl IH Hx]; simpl; [constructor|].
  destruct (p x); [|done]. constructor; [done|].
  apply Forall_forall. intros y Hy. apply list_elem_of_In, filter_In in Hy as [Hy _].
  rewrite Forall_forall in Hx. by apply Hx, list_elem_of_In.
Qed.

Lemma uniqueKeys_subseteq (so : SortSpec) (l1 l2 : list (gmap string V)) :
  l1 ⊆ l2 → uniqueKeys so l2 → uniqueKeys so l1.
Proof. intros Hsub Hu a b Ha Hb. apply Hu; by apply Hsub. Qed.

Lemma selected_subseteq (s : Selector V) (docs : list (gmap string V)) :
  selected s docs ⊆ docs.
Proof. intros row Hrow. by apply elem_of_selected in Hrow as [? _]. Qed.

(** Sorting the matching rows is picking the matching ones of the sorted
    rows, when no two rows share a key. *)
Lemma sort_filter_commute (so : SortSpec) (p : gmap string V → bool)
    (docs : list (gmap string V)) :
  uniqueKeys so docs →
  merge_sort (rowLe so) (List.filter p docs)
  = List.filter p (merge_sort (rowLe so) docs).
Proof.
  intros Huniq. apply (StronglySorted_unique_strong (rowLe so)).
  - intros x y Hx Hy Hxy Hyx. apply Huniq.
    + rewrite merge_sort_Permutation in Hx.
      by apply list_elem_of_In, filter_In in Hx as [?%list_elem_of_In _].
    + apply list_elem_of_In, filter_In in Hy as [Hy%list_elem_of_In _].
      by rewrite merge_sort_Permutation in Hy.
    + by apply (cmp_le_antisym (compositeCompare so) (compositeCompare_antisym so)).
  - apply StronglySorted_merge_sort; apply _.
  - apply StronglySorted_List_filter, StronglySorted_merge_sort; apply _.
  - rewrite merge_sort_Permutation. apply List_filter_Permutation.
    by rewrite merge_sort_Permutation.
Qed.

Lemma compare_refl (x : V) : compare x x = Eq.
Proof. pose proof (compare_antisym x x) as H. by destruct (compare x x). Qed.

(** In a sorted list of distinct rows with distinct keys, the rows after
    the cursor of a row are those that follow it, and the rows before
    its cursor those that precede it. *)
Lemma filter_around_row (so : SortSpec) (l1 l2 : list (gmap string V))
    (r : gmap string V) :
  NoDup (fieldNames so) →
  StronglySorted (rowLe so) (l1 ++ r :: l2) →
  NoDup (l1 ++ r :: l2) → uniqueKeys so (l1 ++ r :: l2) →
  List.filter (matches (keyToSelector so (cursorKey so r) After)) (l1 ++ r :: l2) = l2
  ∧ List.filter (matches (keyToSelector so (cursorKey so r) Before)) (l1 ++ r :: l2) = l1.
Proof.
  intros Hnd Hsorted Hdistinct Huniq.
  assert (∀ x, x ∈ l1 →
            compositeCompare so (cursorKey so x) (cursorKey so r) = Lt) as Hl1.
  { intros x Hx.
    assert (rowLe so x r) as Hle
      by (eapply StronglySorted_app_1_elem_of; [done..|by left]).
    unfold rowLe in Hle.
    destruct (compositeCompare so (cursorKey so x) (cursorKey so r)) eqn:E; [|done..].
    apply Huniq in E; [|set_solver..]. subst x.
    apply NoDup_app in Hdistinct as (_ & Hnot & _). destruct (Hnot r Hx). by left. }
  assert (∀ y, y ∈ l2 →
            compositeCompare so (cursorKey so y) (cursorKey so r) = Gt) as Hl2.
  { intros y Hy.
    assert (rowLe so r y) as Hle.
    { apply StronglySorted_app_1_r in Hsorted.
      apply StronglySorted_inv in Hsorted as [_ Hall].
      rewrite Forall_forall in Hall. by apply Hall. }
    unfold rowLe in Hle. rewrite compositeCompare_antisym.
    destruct (compositeCompare so (cursorKey so r) (cursorKey so y)) eqn:E; [|done..].
    apply Huniq in E; [|set_solver..]. subst y.
    apply NoDup_app in Hdistinct as (_ & _ & Hr). by apply NoDup_cons in Hr as [? _]. }
  assert (compositeCompare so (cursorKey so r) (cursorKey so r) = Eq) as Hr
    by (apply compositeCompare_refl, compare_refl).
  rewrite !List.filter_app, !List_filter_cons.
  assert (∀ d x c, compositeCompare so (cursorKey so x) (cursorKey so r) = c →
            matches (keyToSelector so (cursorKey so r) d) x
            = bool_decide (c = wanted d)) as Hm.
  { intros d x c Hc. apply eq_true_iff_eq.
    by rewrite matches_keyToSelector, bool_decide_eq_true, Hc. }
  rewrite !(Hm _ r Eq Hr).
  rewrite (bool_decide_eq_false_2 (Eq = wanted After)) by done.
  rewrite (bool_decide_eq_false_2 (Eq = wanted Before)) by done.
  split.
  - rewrite (List_filter_none _ l1)
      by (intros x Hx; by rewrite (Hm _ x Lt (Hl1 x Hx))).
    by rewrite (List_filter_all _ l2)
      by (intros y Hy; by rewrite (Hm _ y Gt (Hl2 y Hy))).
  - rewrite (List_filter_all _ l1)
      by (intros x Hx; by rewrite (Hm _ x Lt (Hl1 x Hx))).
    rewrite (List_filter_none _ l2)
      by (intros y Hy; by rewrite (Hm _ y Gt (Hl2 y Hy))).
    by rewrite app_nil_r.
Qed.

Lemma selected_constructed (o : MongoEntityConnectionOptions)
    (ak bk : option (list V)) (docs : list (gmap string V)) :
  selected (combine (option_list
                       ((λ key, keyToSelector (options_sortOptions o) key After) <$> ak)
                     ++ option_list
                          ((λ key, keyToSelector (options_sortOptions o) key Before) <$> bk)
                     ++ option_list (options_selector o))) docs
  = List.filter
      (λ row,
         holdsOpt ((λ key, keyToSelector (options_sortOptions o) key After) <$> ak) row
         && holdsOpt ((λ key, keyToSelector (options_sortOptions o) key Before) <$> bk) row)
      (selected (baseSelector o) docs).
Proof.
  unfold selected. rewrite <-List_filter_andb.
  apply List.filter_ext. intros row. apply matches_constructed.
Qed.

Lemma matching_constructed (a : ConnectionArguments)
    (o : MongoEntityConnectionOptions) (c : MongoEntityConnection) (w : World) :
  constructor a o = inr c →
  matching c w
  = List.filter (λ row, holdsOpt (afterSelector c) row && holdsOpt (beforeSelector c) row)
      (selected (baseSelector o) (collection w)).
Proof.
  intros Hc. apply constructor_inv in Hc as (_ & ak & bk & _ & _ & ->).
  unfold matching. cbn [selector afterSelector beforeSelector].
  apply selected_constructed.
Qed.

Lemma ascending_facts (so : SortSpec) (s : Selector V) (docs l : list (gmap string V)) :
  ascending so s docs = l →
  NoDup (selected s docs) → uniqueKeys so (selected s docs) →
  StronglySorted (rowLe so) l ∧ NoDup l ∧ uniqueKeys so l.
Proof.
  intros <- Hdistinct Huniq. unfold ascending. split_and!.
  - apply StronglySorted_merge_sort; apply _.
  - by rewrite merge_sort_Permutation.
  - intros x y Hx Hy. rewrite merge_sort_Permutation in Hx, Hy. by apply Huniq.
Qed.

(** X12. Paging forward from a row: when [after] is a cursor that
    decodes to the key of a row [r], and [before] and [last] are not
    given, the edge sources are the rows that follow [r] among the rows
    the caller's selector matches, in the order of the sort options, cut
    at the limit; those rows being distinct and no two sharing a key. *)
Theorem next_page_continues (a : ConnectionArguments)
    (o : MongoEntityConnectionOptions) (c : MongoEntityConnection) (w : World)
    (cur : string) (r : gmap string V) (l1 l2 : list (gmap string V)) :
  NoDup (fieldNames (options_sortOptions o)) →
  constructor a o = inr c →
  last a = None → before a = None →
  after a = Some cur → cur ≠ "" →
  explodeCursor cur = inr (cursorKey (options_sortOptions o) r) →
  NoDup (selected (baseSelector o) (collection w)) →
  uniqueKeys (options_sortOptions o) (selected (baseSelector o) (collection w)) →
  ascending (options_sortOptions o) (baseSelector o) (collection w) = l1 ++ r :: l2 →
  (getEdgeSources c w).1.1 = truncate (limit c) l2.
Proof.
  intros Hnd Hc Hlast Hbefore Hafter Hcur Hkey Hdistinct Huniq Hasc.
  pose proof (matching_constructed a o c w Hc) as Hm.
  apply constructor_inv in Hc as (_ & ak & bk & Hak & Hbk & ->).
  apply decodeBound_inv in Hak; [|by rewrite Hafter; intros [= ->]].
  rewrite Hafter in Hak. destruct Hak as (k & Hk & ->).
  assert (k = cursorKey (options_sortOptions o) r) as -> by congruence.
  rewrite Hbefore in Hbk. injection Hbk as <-.
  rewrite getEdgeSources_fresh, query_rows by done.
  cbn [args sortOptions limit afterSelector beforeSelector] in Hm |- *.
  rewrite Hlast in Hm |- *. cbn [isNumber]. f_equal. rewrite Hm.
  cbn [fmap option_fmap option_map holdsOpt].
  rewrite (List.filter_ext _
             (matches (keyToSelector (options_sortOptions o)
                         (cursorKey (options_sortOptions o) r) After)))
    by (intros row; apply andb_true_r).
  rewrite sort_filter_commute by done.
  fold (ascending (options_sortOptions o) (baseSelector o) (collection w)).
  destruct (ascending_facts _ _ _ _ Hasc Hdistinct Huniq) as (Hs & Hd & Hu).
  rewrite Hasc. by apply filter_around_row.
Qed.

(** X13. Paging backward from a row: when [before] is a cursor that
    decodes to the key of a row [r], [after] is not given and
    [last = k >= 1], the edge sources are the final [k] of the rows that
    precede [r] among the rows the caller's selector matches, in the
    order of the sort options; those rows being distinct and no two
    sharing a key. *)
Theorem previous_page_precedes (a : ConnectionArguments)
    (o : MongoEntityConnectionOptions) (c : MongoEntityConnection) (w : World)
    (cur : string) (r : gmap string V) (l1 l2 : list (gmap string V)) (k : nat) :
  NoDup (fieldNames (options_sortOptions o)) →
  constructor a o = inr c →
  last a = Some (S k) → after a = None →
  before a = Some cur → cur ≠ "" →
  explodeCursor cur = inr (cursorKey (options_sortOptions o) r) →
  NoDup (selected (baseSelector o) (collection w)) →
  uniqueKeys (options_sortOptions o) (selected (baseSelector o) (collection w)) →
  ascending (options_sortOptions o) (baseSelector o) (collection w) = l1 ++ r :: l2 →
  (getEdgeSources c w).1.1 = drop (length l1 - S k) l1.
Proof.
  intros Hnd Hc Hlast Hafter Hbefore Hcur Hkey Hdistinct Huniq Hasc.
  pose proof (matching_constructed a o c w Hc) as Hm.
  apply constructor_inv in Hc as (Hboth & ak & bk & Hak & Hbk & ->).
  rewrite Hlast in Hboth. simpl in Hboth. rewrite andb_true_r in Hboth.
  apply decodeBound_inv in Hbk; [|by rewrite Hbefore; intros [= ->]].
  rewrite Hbefore in Hbk. destruct Hbk as (kb & Hk & ->).
  assert (kb = cursorKey (options_sortOptions o) r) as -> by congruence.
  rewrite Hafter in Hak. injection Hak as <-.
  rewrite getEdgeSources_fresh, query_rows by done.
  cbn [args sortOptions limit afterSelector beforeSelector] in Hm |- *.
  rewrite Hlast, Hboth in Hm |- *. cbn [isNumber truncate]. rewrite Hm.
  cbn [fmap option_fmap option_map holdsOpt].
  set (B := keyToSelector (options_sortOptions o)
              (cursorKey (options_sortOptions o) r) Before).
  rewrite (List.filter_ext _ (matches B)) by done.
  assert (uniqueKeys (options_sortOptions o)
            (List.filter (matches B) (selected (baseSelector o) (collection w))))
    as Huniq'.
  { eapply uniqueKeys_subseteq; [|done].
    intros row Hrow. by apply list_elem_of_In, filter_In in Hrow as [?%list_elem_of_In _]. }
  unfold inverted.
  rewrite <-(reverse_involutive
               (merge_sort (rowLe _)
                  (List.filter (matches B) (selected (baseSelector o) (collection w))))).
  rewrite reverse_sort_flipped by done.
  rewrite sort_filter_commute by done.
  fold (ascending (options_sortOptions o) (baseSelector o) (collection w)).
  destruct (ascending_facts _ _ _ _ Hasc Hdistinct Huniq) as (Hs & Hd & Hu).
  rewrite Hasc. subst B.
  destruct (filter_around_row _ l1 l2 r Hnd Hs Hd Hu) as [_ ->].
  cbn [truncate truthyNumber negb Nat.eqb].
  by rewrite reverse_take, reverse_involutive, length_reverse.
Qed.

Lemma length_query_rows (c : MongoEntityConnection) (w : World) :
  length (query c w).1
  = match limit c with
    | Some n => n `min` length (matching c w)
    | None => length (matching c w)
    end.
Proof.
  rewrite query_rows.
  destruct (isNumber (last (args c)));
    rewrite ?length_reverse, length_truncate;
    by rewrite (Permutation_length (merge_sort_Permutation _ _)).
Qed.

(** X14. With [first = k >= 1], [hasNextPage] is true exactly when the
    limit left matching rows out of the edge sources; with
    [last = k >= 1], [hasPreviousPage] likewise. *)
Theorem page_flag_iff_truncated (a : ConnectionArguments)
    (o : MongoEntityConnectionOptions) (c : MongoEntityConnection) (w : World) :
  constructor a o = inr c →
  (∀ k, first a = Some (S k) →
        resolveHasNextPage c (collection w)
        = inr (bool_decide (length (getEdgeSources c w).1.1 < length (matching c w))))
  ∧ (∀ k, last a = Some (S k) →
          resolveHasPreviousPage c (collection w)
          = inr (bool_decide (length (getEdgeSources c w).1.1 < length (matching c w)))).
Proof.
  intros Hc. apply constructor_inv in Hc as (Hboth & ak & bk & _ & _ & ->).
  rewrite getEdgeSources_fresh, length_query_rows by done.
  unfold resolveHasNextPage, resolveHasPreviousPage, matching. simpl. split.
  - intros k Hfirst. rewrite Hfirst. simpl. rewrite count_exceeds.
    f_equal. apply bool_decide_ext.
    match goal with |- _ < ?M ↔ _ => generalize M end. intros [|m]; lia.
  - intros k Hlast. rewrite Hlast in Hboth |- *. simpl in Hboth.
    rewrite andb_true_r in Hboth. rewrite Hboth. simpl. rewrite count_exceeds.
    f_equal. apply bool_decide_ext.
    match goal with |- _ < ?M ↔ _ => generalize M end. intros [|m]; lia.
Qed.

(** X15. A limit of [0] is no limit: with [first = 0] and no [last] (or
    [last = 0] and no [first]) the edge sources are as many as the
    matching rows, and [hasNextPage] (or [hasPreviousPage]) is true as
    soon as one row matches. *)
Theorem zero_limit_fetches_everything (a : ConnectionArguments)
    (o : MongoEntityConnectionOptions) (c : MongoEntityConnection) (w : World) :
  constructor a o = inr c →
  (first a = Some 0 → last a = None →
   length (getEdgeSources c w).1.1 = length (matching c w)
   ∧ resolveHasNextPage c (collection w)
     = inr (bool_decide (0 < length (matching c w))))
  ∧ (last a = Some 0 → first a = None →
     length (getEdgeSources c w).1.1 = length (matching c w)
     ∧ resolveHasPreviousPage c (collection w)
       = inr (bool_decide (0 < length (matching c w)))).
Proof.
  intros Hc. apply constructor_inv in Hc as (_ & ak & bk & _ & _ & ->).
  rewrite getEdgeSources_fresh, length_query_rows by done.
  unfold resolveHasNextPage, resolveHasPreviousPage, matching. simpl.
  split; intros -> ->; simpl; by rewrite count_exceeds.
Qed.

End Values.

(** ** The theorems at the sample data *)

Lemma keyToSelector_selects_beyond_witness :
  (matches 0%Z Z.compare (keyToSelector 0%Z Sample.sortOptions [2; 5]%Z After)
     (Sample.post 2 4) = true
   ↔ compositeCompare 0%Z Z.compare Sample.sortOptions
       (cursorKey 0%Z Sample.sortOptions (Sample.post 2 4)) [2; 5]%Z = Gt)
  ∧ (matches 0%Z Z.compare (keyToSelector 0%Z Sample.sortOptions [2; 5]%Z Before)
       (Sample.post 2 4) = true
     ↔ compositeCompare 0%Z Z.compare Sample.sortOptions
         (cursorKey 0%Z Sample.sortOptions (Sample.post 2 4)) [2; 5]%Z = Lt).
Proof.
  apply (keyToSelector_selects_beyond 0%Z Z.compare Sample.sortOptions [2; 5]%Z
           (Sample.post 2 4)).
  - simpl. lia.
  - reflexivity.
  - apply (bool_decide_unpack _). vm_compute. exact I.
Defined.

Lemma keyToSelector_refines_standard_witness :
  matches 0%Z Z.compare (keyToSelector 0%Z Sample.sortOptions [2; 5]%Z After)
    (Sample.post 2 4)
  = matches 0%Z Z.compare (standardKeyset 0%Z Sample.sortOptions [2; 5]%Z After)
      (Sample.post 2 4).
Proof.
  apply (keyToSelector_refines_standard 0%Z Z.compare Sample.sortOptions [2; 5]%Z
           After (Sample.post 2 4)).
  apply (bool_decide_unpack _). vm_compute. exact I.
Defined.

Lemma selector_is_conjunction_witness :
  ∃ c, constructor 0%Z Sample.deserialize Sample.decode
         {| first := Some 2; last := None; after := Some "25"; before := None |}
         {| options_sortOptions := Sample.sortOptions;
            options_selector := Some (Fields {["slug" := CEq 7%Z]}) |} = inr c
       ∧ ∀ row, matches 0%Z Z.compare (selector c) row
                = holdsOpt 0%Z Z.compare (afterSelector c) row
                  && holdsOpt 0%Z Z.compare (beforeSelector c) row
                  && matches 0%Z Z.compare (Fields {["slug" := CEq 7%Z]}) row.
Proof.
  eexists. split; [reflexivity|].
  eapply (selector_is_conjunction 0%Z Z.compare Sample.deserialize Sample.decode
            {| first := Some 2; last := None; after := Some "25"; before := None |}
            {| options_sortOptions := Sample.sortOptions;
               options_selector := Some (Fields {["slug" := CEq 7%Z]}) |}).
  - discriminate.
  - discriminate.
  - reflexivity.
Defined.

Lemma pageInfo_probes_witness :
  ∃ c, constructor 0%Z Sample.deserialize Sample.decode
         {| first := Some 2; last := None; after := Some "25"; before := None |}
         {| options_sortOptions := Sample.sortOptions; options_selector := None |}
       = inr c
       ∧ resolveHasNextPage 0%Z Z.compare c Sample.posts
         = inr (2 <? count 0%Z Z.compare Sample.posts (selector c) (2 + 1)).
Proof.
  eexists. split; [reflexivity|].
  eapply (pageInfo_probes 0%Z Z.compare Sample.deserialize Sample.decode
            {| first := Some 2; last := None; after := Some "25"; before := None |}
            {| options_sortOptions := Sample.sortOptions; options_selector := None |}).
  - discriminate.
  - discriminate.
  - reflexivity.
Defined.

Lemma getEdgeSources_fetches_once_witness :
  ∃ c, constructor 0%Z Sample.deserialize Sample.decode
         (Sample.noBounds (Some 2) None)
         {| options_sortOptions := Sample.sortOptions; options_selector := None |}
       = inr c
       ∧ (accesses 0%Z Z.compare c {| collection := []; issued := [] |}
            [Sample.posts; []; [Sample.post 9 9]]).1.1
         = replicate 3
             (query 0%Z Z.compare c {| collection := Sample.posts; issued := [] |}).1
       ∧ issued (accesses 0%Z Z.compare c {| collection := []; issued := [] |}
                   [Sample.posts; []; [Sample.post 9 9]]).2
         = [requestOf c].
Proof.
  eexists. split; [reflexivity|].
  match goal with |- (accesses _ _ ?c _ _).1.1 = _ ∧ _ =>
    destruct (getEdgeSources_fetches_once 0%Z Z.compare c
                {| collection := []; issued := [] |} Sample.posts
                [[]; [Sample.post 9 9]] eq_refl) as (Hrows & _ & Hissued)
  end.
  split; [exact Hrows|exact Hissued].
Defined.

(** C2, where the code departs from it. With [last = 0] on the four
    sample posts the edge sources are all four posts in ascending order,
    not the final zero of them. *)
Theorem last_zero_returns_every_row :
  ∃ c, constructor 0%Z Sample.deserialize Sample.decode
         (Sample.noBounds None (Some 0))
         {| options_sortOptions := Sample.sortOptions; options_selector := None |}
       = inr c
       ∧ Sample.view <$> (getEdgeSources 0%Z Z.compare c
                            {| collection := Sample.posts; issued := [] |}).1.1
         = [(1, 1); (2, 7); (2, 5); (3, 1)]%Z.
Proof. eexists. split; [reflexivity|]. vm_compute. reflexivity. Qed.

(** C9 as stated fails: with [first = 1] and [last = 1] the constructor
    throws an error whose message is not the specification's wording. *)
Lemma first_and_last_message_differs :
  ∃ m, constructor 0%Z Sample.deserialize Sample.decode
         (Sample.noBounds (Some 1) (Some 1))
         {| options_sortOptions := Sample.sortOptions; options_selector := None |}
       = inl (Error m)
       ∧ m ≠ "first and last must not be included at the same time".
Proof.
  eexists. split; [reflexivity|].
  intros H. vm_compute in H. discriminate H.
Qed.

Lemma Z_compare_trans (c : comparison) (x y z : Z) :
  (x ?= y)%Z = c → (y ?= z)%Z = c → (x ?= z)%Z = c.
Proof.
  destruct c; rewrite ?Z.compare_eq_iff, ?Z.compare_lt_iff, ?Z.compare_gt_iff; lia.
Qed.

Lemma sample_posts_uniqueKeys :
  uniqueKeys 0%Z Z.compare Sample.sortOptions Sample.posts.
Proof.
  intros a b Ha Hb. unfold Sample.posts in Ha, Hb.
  repeat (apply elem_of_cons in Ha as [->|Ha]); [..|by apply elem_of_nil in Ha];
    (repeat (apply elem_of_cons in Hb as [->|Hb]); [..|by apply elem_of_nil in Hb]);
    intros H; first [reflexivity | vm_compute in H; discriminate H].
Qed.

(** With [last = 2] the edge sources are the final two of the sample
    posts, and there is a previous page. *)
Lemma last_positive_returns_tail_sample :
  ∃ c, constructor 0%Z Sample.deserialize Sample.decode
         (Sample.noBounds None (Some 2))
         {| options_sortOptions := Sample.sortOptions; options_selector := None |}
       = inr c
       ∧ Sample.view <$> (getEdgeSources 0%Z Z.compare c
                            {| collection := Sample.posts; issued := [] |}).1.1
         = [(2, 5); (3, 1)]%Z
       ∧ resolveHasPreviousPage 0%Z Z.compare c Sample.posts = inr true.
Proof.
  eexists. split; [reflexivity|].
  match goal with |- _ <$> (getEdgeSources _ _ ?c ?w).1.1 = _ ∧ _ =>
    destruct (last_positive_returns_tail 0%Z Z.compare Sample.deserialize Sample.decode
                (λ x y, Z.compare_antisym x y) Z_compare_trans
                (Sample.noBounds None (Some 2))
                {| options_sortOptions := Sample.sortOptions; options_selector := None |}
                c w 1 eq_refl eq_refl sample_posts_uniqueKeys) as [Hrows Hprev]
  end.
  split.
  - rewrite Hrows. vm_compute. reflexivity.
  - refine (eq_trans Hprev _). vm_compute. reflexivity.
Defined.

(** ** Further statements at the sample data *)

Lemma sample_sortOptions_NoDup : NoDup (fieldNames Sample.sortOptions).
Proof. apply (bool_decide_unpack _). vm_compute. exact I. Qed.

Lemma sample_posts_NoDup : NoDup Sample.posts.
Proof.
  apply (NoDup_fmap_1 Sample.view).
  apply (bool_decide_unpack _). vm_compute. exact I.
Qed.

Lemma edges_bounded_and_matching_witness :
  ∃ c, constructor 0%Z Sample.deserialize Sample.decode
         (Sample.noBounds (Some 2) None)
         {| options_sortOptions := Sample.sortOptions; options_selector := None |}
       = inr c
       ∧ length (getEdgeSources 0%Z Z.compare c
                   {| collection := Sample.posts; issued := [] |}).1.1 = 2.
Proof.
  eexists. split; [reflexivity|].
  match goal with |- length (getEdgeSources _ _ ?c ?w).1.1 = _ =>
    destruct (edges_bounded_and_matching 0%Z Z.compare c w eq_refl) as [Hlen _]
  end.
  refine (eq_trans Hlen _). vm_compute. reflexivity.
Defined.

Lemma edges_sorted_witness :
  ∃ c, constructor 0%Z Sample.deserialize Sample.decode
         (Sample.noBounds None (Some 2))
         {| options_sortOptions := Sample.sortOptions; options_selector := None |}
       = inr c
       ∧ Sorted (rowLe 0%Z Z.compare Sample.sortOptions)
           (getEdgeSources 0%Z Z.compare c
              {| collection := Sample.posts; issued := [] |}).1.1.
Proof.
  eexists. split; [reflexivity|].
  match goal with |- Sorted _ (getEdgeSources _ _ ?c ?w).1.1 =>
    exact (edges_sorted 0%Z Z.compare (λ x y, Z.compare_antisym x y) c w eq_refl)
  end.
Defined.

Lemma limit_never_zero_witness :
  ∃ c, constructor 0%Z Sample.deserialize Sample.decode
         (Sample.noBounds (Some 0) (Some 3))
         {| options_sortOptions := Sample.sortOptions; options_selector := None |}
       = inr c
       ∧ limit c ≠ Some 0.
Proof.
  eexists. split; [reflexivity|].
  eapply (limit_never_zero 0%Z Sample.deserialize Sample.decode
            (Sample.noBounds (Some 0) (Some 3))
            {| options_sortOptions := Sample.sortOptions; options_selector := None |}).
  reflexivity.
Defined.

Lemma empty_cursor_is_ignored_witness :
  ∃ c, constructor 0%Z Sample.deserialize Sample.decode
         {| first := None; last := None; after := Some ""; before := None |}
         {| options_sortOptions := Sample.sortOptions; options_selector := None |}
       = inr c
       ∧ resolveHasPreviousPage 0%Z Z.compare c Sample.posts = inl TypeError.
Proof.
  eexists. split; [reflexivity|].
  match goal with |- resolveHasPreviousPage _ _ ?c _ = _ =>
    destruct (empty_cursor_is_ignored 0%Z Z.compare Sample.deserialize Sample.decode
                {| first := None; last := None; after := Some ""; before := None |}
                {| options_sortOptions := Sample.sortOptions; options_selector := None |}
                c Sample.posts eq_refl) as [Hafter _]
  end.
  destruct (Hafter eq_refl) as (_ & _ & Hthrows).
  apply Hthrows; [reflexivity|discriminate].
Defined.

Lemma own_cursor_excluded_witness :
  matches 0%Z Z.compare
    (keyToSelector 0%Z Sample.sortOptions
       (cursorKey 0%Z Sample.sortOptions (Sample.post 2 5)) After)
    (Sample.post 2 5) = false.
Proof.
  apply (own_cursor_excluded 0%Z Z.compare Sample.sortOptions After (Sample.post 2 5)).
  - apply sample_sortOptions_NoDup.
  - intros x. apply Z.compare_refl.
Defined.

Lemma after_before_partition_witness :
  matches 0%Z Z.compare (keyToSelector 0%Z Sample.sortOptions [2; 5]%Z After)
    (Sample.post 2 4) = true
  ∧ matches 0%Z Z.compare (keyToSelector 0%Z Sample.sortOptions [2; 5]%Z Before)
      (Sample.post 2 4) = false.
Proof.
  exact (after_before_partition 0%Z Z.compare Sample.sortOptions [2; 5]%Z
           (Sample.post 2 4) sample_sortOptions_NoDup).
Defined.

Lemma inverted_swaps_directions_witness :
  matches 0%Z Z.compare
    (keyToSelector 0%Z (inverted Sample.sortOptions) [2; 5]%Z After) (Sample.post 2 4)
  = matches 0%Z Z.compare
      (keyToSelector 0%Z Sample.sortOptions [2; 5]%Z Before) (Sample.post 2 4)
  ∧ matches 0%Z Z.compare
      (keyToSelector 0%Z (inverted Sample.sortOptions) [2; 5]%Z Before) (Sample.post 2 4)
    = matches 0%Z Z.compare
        (keyToSelector 0%Z Sample.sortOptions [2; 5]%Z After) (Sample.post 2 4).
Proof.
  apply (inverted_swaps_directions 0%Z Z.compare Sample.sortOptions [2; 5]%Z
           (Sample.post 2 4)).
  apply sample_sortOptions_NoDup.
Defined.

Lemma selector_between_witness :
  ∃ c, constructor 0%Z Sample.deserialize Sample.decode
         {| first := None; last := None;
            after := Some Sample.cursor25; before := Some Sample.cursor31 |}
         {| options_sortOptions := Sample.sortOptions; options_selector := None |}
       = inr c
       ∧ (matches 0%Z Z.compare (selector c) (Sample.post 2 4) = true
          ↔ compositeCompare 0%Z Z.compare Sample.sortOptions
              (cursorKey 0%Z Sample.sortOptions (Sample.post 2 4)) [2; 5]%Z = Gt
            ∧ compositeCompare 0%Z Z.compare Sample.sortOptions
                (cursorKey 0%Z Sample.sortOptions (Sample.post 2 4)) [3; 1]%Z = Lt
            ∧ matches 0%Z Z.compare
                (baseSelector {| options_sortOptions := Sample.sortOptions;
                                 options_selector := None |})
                (Sample.post 2 4) = true).
Proof.
  eexists. split; [reflexivity|].
  eapply (selector_between 0%Z Z.compare Sample.deserialize Sample.decode
            {| first := None; last := None;
               after := Some Sample.cursor25; before := Some Sample.cursor31 |}
            {| options_sortOptions := Sample.sortOptions; options_selector := None |}
            _ Sample.cursor25 Sample.cursor31 [2; 5]%Z [3; 1]%Z (Sample.post 2 4)).
  - apply sample_sortOptions_NoDup.
  - reflexivity.
  - reflexivity.
  - discriminate.
  - reflexivity.
  - reflexivity.
  - discriminate.
  - reflexivity.
Defined.

Lemma cursor_probe_ignores_the_rest_witness :
  ∃ c1 c2,
    constructor 0%Z Sample.deserialize Sample.decode
      {| first := None; last := None; after := None; before := Some Sample.cursor25 |}
      {| options_sortOptions := Sample.sortOptions; options_selector := None |}
    = inr c1
    ∧ constructor 0%Z Sample.deserialize Sample.decode
        {| first := None; last := Some 1;
           after := Some Sample.cursor31; before := Some Sample.cursor25 |}
        {| options_sortOptions := Sample.sortOptions;
           options_selector := Some (Fields {["slug" := CEq 9%Z]}) |}
      = inr c2
    ∧ resolveHasNextPage 0%Z Z.compare c1 Sample.posts
      = resolveHasNextPage 0%Z Z.compare c2 Sample.posts.
Proof.
  eexists _, _. split; [reflexivity|]. split; [reflexivity|].
  match goal with |- resolveHasNextPage _ _ ?c1 _ = resolveHasNextPage _ _ ?c2 _ =>
    destruct (cursor_probe_ignores_the_rest 0%Z Z.compare
                Sample.deserialize Sample.decode
                {| first := None; last := None; after := None;
                   before := Some Sample.cursor25 |}
                {| first := None; last := Some 1;
                   after := Some Sample.cursor31; before := Some Sample.cursor25 |}
                {| options_sortOptions := Sample.sortOptions; options_selector := None |}
                {| options_sortOptions := Sample.sortOptions;
                   options_selector := Some (Fields {["slug" := CEq 9%Z]}) |}
                c1 c2 Sample.posts eq_refl eq_refl eq_refl) as [Hnext _]
  end.
  exact (Hnext eq_refl eq_refl eq_refl).
Defined.

Lemma sample_posts_ascending :
  ascending 0%Z Z.compare Sample.sortOptions
    (baseSelector {| options_sortOptions := Sample.sortOptions; options_selector := None |})
    Sample.posts
  = [Sample.post 1 1; Sample.post 2 7] ++ Sample.post 2 5 :: [Sample.post 3 1].
Proof.
  vm_cast_no_check
    (eq_refl ([Sample.post 1 1; Sample.post 2 7] ++ Sample.post 2 5 :: [Sample.post 3 1])).
Qed.

Lemma next_page_continues_witness :
  ∃ c, constructor 0%Z Sample.deserialize Sample.decode
         {| first := Some 2; last := None;
            after := Some Sample.cursor25; before := None |}
         {| options_sortOptions := Sample.sortOptions; options_selector := None |}
       = inr c
       ∧ (getEdgeSources 0%Z Z.compare c
            {| collection := Sample.posts; issued := [] |}).1.1
         = [Sample.post 3 1].
Proof.
  eexists. split; [reflexivity|].
  match goal with |- (getEdgeSources _ _ ?c ?w).1.1 = _ =>
    refine (eq_trans
              (next_page_continues 0%Z Z.compare Sample.deserialize Sample.decode
                 (λ x y, Z.compare_antisym x y) Z_compare_trans
                 {| first := Some 2; last := None;
                    after := Some Sample.cursor25; before := None |}
                 {| options_sortOptions := Sample.sortOptions; options_selector := None |}
                 c w Sample.cursor25 (Sample.post 2 5)
                 [Sample.post 1 1; Sample.post 2 7] [Sample.post 3 1]
                 sample_sortOptions_NoDup eq_refl eq_refl eq_refl eq_refl _ eq_refl
                 sample_posts_NoDup sample_posts_uniqueKeys sample_posts_ascending) _)
  end.
  - discriminate.
  - reflexivity.
Defined.

Lemma previous_page_precedes_witness :
  ∃ c, constructor 0%Z Sample.deserialize Sample.decode
         {| first := None; last := Some 1;
            after := None; before := Some Sample.cursor25 |}
         {| options_sortOptions := Sample.sortOptions; options_selector := None |}
       = inr c
       ∧ (getEdgeSources 0%Z Z.compare c
            {| collection := Sample.posts; issued := [] |}).1.1
         = [Sample.post 2 7].
Proof.
  eexists. split; [reflexivity|].
  match goal with |- (getEdgeSources _ _ ?c ?w).1.1 = _ =>
    refine (eq_trans
              (previous_page_precedes 0%Z Z.compare Sample.deserialize Sample.decode
                 (λ x y, Z.compare_antisym x y) Z_compare_trans
                 {| first := None; last := Some 1;
                    after := None; before := Some Sample.cursor25 |}
                 {| options_sortOptions := Sample.sortOptions; options_selector := None |}
                 c w Sample.cursor25 (Sample.post 2 5)
                 [Sample.post 1 1; Sample.post 2 7] [Sample.post 3 1] 0
                 sample_sortOptions_NoDup eq_refl eq_refl eq_refl eq_refl _ eq_refl
                 sample_posts_NoDup sample_posts_uniqueKeys sample_posts_ascending) _)
  end.
  - discriminate.
  - reflexivity.
Defined.

Lemma page_flag_iff_truncated_witness :
  ∃ c, constructor 0%Z Sample.deserialize Sample.decode
         (Sample.noBounds (Some 2) None)
         {| options_sortOptions := Sample.sortOptions; options_selector := None |}
       = inr c
       ∧ resolveHasNextPage 0%Z Z.compare c Sample.posts = inr true.
Proof.
  eexists. split; [reflexivity|].
  match goal with |- resolveHasNextPage _ _ ?c _ = _ =>
    destruct (page_flag_iff_truncated 0%Z Z.compare Sample.deserialize Sample.decode
                (Sample.noBounds (Some 2) None)
                {| options_sortOptions := Sample.sortOptions; options_selector := None |}
                c {| collection := Sample.posts; issued := [] |} eq_refl) as [Hnext _]
  end.
  refine (eq_trans (Hnext 1 eq_refl) _). vm_compute. reflexivity.
Defined.

Lemma zero_limit_fetches_everything_witness :
  ∃ c, constructor 0%Z Sample.deserialize Sample.decode
         (Sample.noBounds (Some 0) None)
         {| options_sortOptions := Sample.sortOptions; options_selector := None |}
       = inr c
       ∧ length (getEdgeSources 0%Z Z.compare c
                   {| collection := Sample.posts; issued := [] |}).1.1 = 4
       ∧ resolveHasNextPage 0%Z Z.compare c Sample.posts = inr true.
Proof.
  eexists. split; [reflexivity|].
  match goal with |- length (getEdgeSources _ _ ?c ?w).1.1 = _ ∧ _ =>
    destruct (zero_limit_fetches_everything 0%Z Z.compare
                Sample.deserialize Sample.decode
                (Sample.noBounds (Some 0) None)
                {| options_sortOptions := Sample.sortOptions; options_selector := None |}
                c w eq_refl) as [Hfirst _]
  end.
  destruct (Hfirst eq_refl eq_refl) as [Hlen Hnext]. split.
  - refine (eq_trans Hlen _). vm_compute. reflexivity.
  - refine (eq_trans Hnext _). vm_compute. reflexivity.
Defined.
